(** * TicketBooking: a shallow embedding of the booking ledger

    The contract [TicketBooking] (Solidity ^0.8.20) keeps events and tickets,
    pulls the ticket price in an ERC-20 token on booking and pushes a tiered
    refund on cancellation.  It is embedded here function by function:
    storage is a record, Solidity mappings are finite maps read with a
    default value, [uint256] is [N] with the compiler's overflow check
    written out, and every external function is a computation in a small
    state-and-revert monad.  A revert carries the world as it stood at the
    failing statement; [execute] throws that world away, which is how the EVM
    discards the effects of a failed transaction. *)

From Stdlib Require Import NArith Lia.
From stdpp Require Import base option numbers strings list gmap fin_maps.
From stdpp Require Import pretty.

Local Open Scope N_scope.

(** ** Machine types *)

(** Account addresses; [address(0)] is [0]. *)
Abbreviation address := N (only parsing).

(** The largest [uint256]. *)
Definition uint256_max : N := 2 ^ 256 - 1.

(** ** Structs of the contract *)

Record Event := mkEvent {
  name : string;
  date : N;
  price : N;
  totalTickets : N;
  soldTickets : N;
  refundDeadline : N
}.

(** The struct field [owner] of [Ticket] is called [ticket_owner] here, the
    name [owner] being taken by the contract's immutable. *)
Record Ticket := mkTicket {
  eventId : N;
  ticket_owner : address;
  isCancelled : bool
}.

(** A mapping slot that was never written reads as the all-zero struct. *)
Definition default_Event : Event := mkEvent "" 0 0 0 0 0.
Definition default_Ticket : Ticket := mkTicket 0 0 false.

#[global] Instance Event_inhabited : Inhabited Event := populate default_Event.
#[global] Instance Ticket_inhabited : Inhabited Ticket := populate default_Ticket.

(** ** Reverts *)

(** How the payment token refused a transfer: by returning [false], or by
    reverting itself (the revert then bubbles up through the ledger). *)
Inductive rejection := ReturnedFalse | CallReverted.

(** The ways a call to the ledger can fail.  [Overflow] is the arithmetic
    panic of checked [++]; [RegistryFailed] is a revert raised by the
    inherited ERC-721 code in [_safeMint] or [_burn] about the id;
    [InvalidReceiver] is the ERC-721 error of the same name, raised by
    [_safeMint] about the new holder; [ReceiverReverted] is a revert of the
    new holder's own code, passed on by [_safeMint]. *)
Inductive error :=
| Unauthorized
| NotFound
| SoldOut
| PaymentFailed (how : rejection)
| NotOwner
| AlreadyCancelled
| NothingToWithdraw
| Overflow
| RegistryFailed
| InvalidReceiver
| ReceiverReverted.

(** The revert string the source attaches to each [require]. *)
Definition revert_message (e : error) : string :=
  match e with
  | Unauthorized => "Only owner can perform this action"
  | NotFound => "Event does not exist"
  | SoldOut => "Sold out"
  | PaymentFailed ReturnedFalse => "TIXCOIN transfer failed"
  | PaymentFailed CallReverted => ""
  | NotOwner => "You do not own this ticket"
  | AlreadyCancelled => "Ticket already cancelled"
  | NothingToWithdraw => "No funds to withdraw"
  | Overflow => "panic 0x11"
  | RegistryFailed => ""
  | InvalidReceiver => ""
  | ReceiverReverted => ""
  end.

(** A call returns a value and the new state, or it reverts; [dirty] is the
    state reached when the revert was raised, kept only to tell what had
    been written by then. *)
Inductive result (A S : Type) :=
| Ok (a : A) (s : S)
| Revert (e : error) (dirty : S).
Arguments Ok {A S} a s.
Arguments Revert {A S} e dirty.

(** ** The payment token interface (IERC20) *)

(** Outcome of an external call into the token: it returns a value and
    leaves the token in a new state, or it reverts. *)
Inductive call_result (A T : Type) :=
| Returned (r : A) (t : T)
| Reverted.
Arguments Returned {A T} r t.
Arguments Reverted {A T}.

(** The three functions of [IERC20] the ledger uses.  The first argument of
    [transfer] and [transferFrom] is the caller ([msg.sender] inside the
    token), which for the ledger's calls is the ledger's own address. *)
Class IERC20 (T : Type) := {
  balanceOf : T -> address -> N;
  transfer : address -> address -> N -> T -> call_result bool T;
  transferFrom : address -> address -> address -> N -> T -> call_result bool T
}.

(** ** Accounts that hold code *)

(** What an account that holds code does when [_safeMint] offers it an
    asset through [onERC721Received]: it returns the selector of that
    function, it returns something else or reverts without a reason (among
    them every contract that does not implement the function), or it
    reverts with a reason of its own. *)
Inductive hook := Accepts | Declines | Throws.

(** ** Storage *)

Section Ledger.
Context {T : Type} `{Tok : IERC20 T}.

(** The contract's storage, its own address [this], the holder table
    [_owners] of the ERC-721 it inherits, the state of the token contract
    at the immutable address [tixcoin], and, of the other accounts, those
    that hold code, each with the answer of its receiver hook ([receivers];
    an address without entry is an externally owned account). *)
Record World := mkWorld {
  owner : address;
  this : address;
  eventIdCounter : N;
  ticketIdCounter : N;
  events : gmap N Event;
  tickets : gmap N Ticket;
  ownerBookings : gmap N (list N);
  _owners : gmap N N;
  tixcoin : T;
  receivers : gmap N hook
}.

Definition set_eventIdCounter (n : N) (w : World) : World :=
  mkWorld (owner w) (this w) n (ticketIdCounter w) (events w) (tickets w)
          (ownerBookings w) (_owners w) (tixcoin w) (receivers w).
Definition set_ticketIdCounter (n : N) (w : World) : World :=
  mkWorld (owner w) (this w) (eventIdCounter w) n (events w) (tickets w)
          (ownerBookings w) (_owners w) (tixcoin w) (receivers w).
Definition set_events (m : gmap N Event) (w : World) : World :=
  mkWorld (owner w) (this w) (eventIdCounter w) (ticketIdCounter w) m (tickets w)
          (ownerBookings w) (_owners w) (tixcoin w) (receivers w).
Definition set_tickets (m : gmap N Ticket) (w : World) : World :=
  mkWorld (owner w) (this w) (eventIdCounter w) (ticketIdCounter w) (events w) m
          (ownerBookings w) (_owners w) (tixcoin w) (receivers w).
Definition set_ownerBookings (m : gmap N (list N)) (w : World) : World :=
  mkWorld (owner w) (this w) (eventIdCounter w) (ticketIdCounter w) (events w)
          (tickets w) m (_owners w) (tixcoin w) (receivers w).
Definition set_owners (m : gmap N N) (w : World) : World :=
  mkWorld (owner w) (this w) (eventIdCounter w) (ticketIdCounter w) (events w)
          (tickets w) (ownerBookings w) m (tixcoin w) (receivers w).
Definition set_tixcoin (t : T) (w : World) : World :=
  mkWorld (owner w) (this w) (eventIdCounter w) (ticketIdCounter w) (events w)
          (tickets w) (ownerBookings w) (_owners w) t (receivers w).
Definition set_receivers (r : gmap N hook) (w : World) : World :=
  mkWorld (owner w) (this w) (eventIdCounter w) (ticketIdCounter w) (events w)
          (tickets w) (ownerBookings w) (_owners w) (tixcoin w) r.

(** The transaction context a function reads. *)
Record Env := mkEnv {
  msg_sender : address;
  block_timestamp : N
}.

(** ** The state-and-revert monad *)

Definition tx (A : Type) : Type := World -> result A World.

#[global] Instance tx_ret : MRet tx := fun A a w => Ok a w.
#[global] Instance tx_bind : MBind tx :=
  fun A B k m w => match m w with
                   | Ok a w' => k a w'
                   | Revert e w' => Revert e w'
                   end.
Definition get : tx World := fun w => Ok w w.
Definition modify (f : World -> World) : tx unit := fun w => Ok tt (f w).
Definition revert {A} (e : error) : tx A := fun w => Revert e w.
Definition require (b : bool) (e : error) : tx unit :=
  if b then mret tt else revert e.

(** Checked increment: [x++] on a [uint256] panics instead of wrapping. *)
Definition checked_inc (x : N) : tx N :=
  if x <? uint256_max then mret (x + 1) else revert Overflow.

(** The return data of a function declared without [returns] is empty. *)
Definition returndata := list N.

(** ** Calls into the token *)

(** An external call made by the ledger: a revert inside the token aborts
    the ledger's call as well; otherwise the token's new state is kept and
    the returned flag is handed to the caller.  The token does not call back
    into the ledger while it runs. *)
Definition external (c : T -> call_result bool T) : tx bool :=
  fun w => match c (tixcoin w) with
           | Returned b t' => Ok b (set_tixcoin t' w)
           | Reverted => Revert (PaymentFailed CallReverted) w
           end.

(** ** The inherited ownership registry *)

(** Modelled from the spec: the Ownership Registry collaborator (section 6:
    [mint(to, id)], [burn(id)], [ownerOf(id)], the last failing for an id
    without holder).  Its code, OpenZeppelin's ERC721, is inherited by the
    contract but is not among the sources.  An id has a holder exactly when
    [_owners] has an entry for it; as in ERC721, minting to the zero address,
    minting an id that has a holder and burning one that has none revert. *)
Definition ownerOf (_ticketId : N) (w : World) : option address :=
  _owners w !! _ticketId.

Definition _mint (to : address) (_ticketId : N) : tx unit :=
  (if to =? 0 then revert InvalidReceiver else mret tt) ;;
  w ← get;
  match _owners w !! _ticketId with
  | Some _ => revert RegistryFailed
  | None => modify (set_owners (<[_ticketId := to]> (_owners w)))
  end.

(** The acceptance check that the [_safeMint] of OpenZeppelin's ERC721 runs
    after [_mint]; the registry of the spec has no counterpart of it.  An
    account without code is not asked.  An account with code is called
    through [onERC721Received]: any answer but the function's selector and a
    revert without reason give [ERC721InvalidReceiver], a revert with a
    reason is passed on.  As the token in [external], the hook answers
    without calling back into the ledger or the token. *)
Definition checkOnERC721Received (to : address) : tx unit :=
  w ← get;
  match receivers w !! to with
  | None => mret tt
  | Some Accepts => mret tt
  | Some Declines => revert InvalidReceiver
  | Some Throws => revert ReceiverReverted
  end.

(** [_safeMint(to, id)]: [_mint], then the acceptance check. *)
Definition _safeMint (to : address) (_ticketId : N) : tx unit :=
  _mint to _ticketId ;;
  checkOnERC721Received to.


Definition _burn (_ticketId : N) : tx unit :=
  w ← get;
  match _owners w !! _ticketId with
  | Some _ => modify (set_owners (delete _ticketId (_owners w)))
  | None => revert RegistryFailed
  end.

(** ** The contract *)

Definition constructor (deployer self : address) (tok : T) : World :=
  mkWorld deployer self 0 0 ∅ ∅ ∅ ∅ tok ∅.

Definition onlyOwner (e : Env) : tx unit :=
  w ← get;
  require (msg_sender e =? owner w) Unauthorized.

Definition createEvent (e : Env) (_name : string)
    (_date _price _totalTickets _refundDeadline : N) : tx returndata :=
  onlyOwner e ;;
  w ← get;
  n ← checked_inc (eventIdCounter w);
  modify (set_eventIdCounter n) ;;
  w ← get;
  modify (set_events
    (<[n := mkEvent _name _date _price _totalTickets 0 _refundDeadline]> (events w))) ;;
  mret [].

Definition withdrawFunds (e : Env) : tx returndata :=
  onlyOwner e ;;
  w ← get;
  let balance := balanceOf (tixcoin w) (this w) in
  require (0 <? balance) NothingToWithdraw ;;
  _ ← external (transfer (this w) (owner w) balance);
  mret [].

Definition bookTicket (e : Env) (_eventId : N) : tx returndata :=
  w ← get;
  require ((0 <? _eventId) && (_eventId <=? eventIdCounter w)) NotFound ;;
  require (soldTickets (events w !!! _eventId) <? totalTickets (events w !!! _eventId))
          SoldOut ;;
  success ← external (transferFrom (this w) (msg_sender e) (this w)
                                    (price (events w !!! _eventId)));
  require success (PaymentFailed ReturnedFalse) ;;
  w ← get;
  let currentEvent := events w !!! _eventId in
  sold ← checked_inc (soldTickets currentEvent);
  modify (set_events
    (<[_eventId := mkEvent (name currentEvent) (date currentEvent) (price currentEvent)
                           (totalTickets currentEvent) sold
                           (refundDeadline currentEvent)]> (events w))) ;;
  w ← get;
  t ← checked_inc (ticketIdCounter w);
  modify (set_ticketIdCounter t) ;;
  w ← get;
  modify (set_tickets (<[t := mkTicket _eventId (msg_sender e) false]> (tickets w))) ;;
  w ← get;
  modify (set_ownerBookings
    (<[msg_sender e := (ownerBookings w !!! msg_sender e) ++ [t]]> (ownerBookings w))) ;;
  _safeMint (msg_sender e) t ;;
  mret [].

(** [try this.ownerOf(id) ... catch { return address(0); }] *)
Definition _ticketOwnerOf (_ticketId : N) (w : World) : address :=
  match ownerOf _ticketId w with
  | Some ticketOwner => ticketOwner
  | None => 0
  end.

(** The local [refundAmount] of [cancelBooking]. *)
Definition refundAmount (e : Env) (currentEvent : Event) : N :=
  if block_timestamp e <? refundDeadline currentEvent
  then price currentEvent
  else price currentEvent / 2.

Definition cancelBooking (e : Env) (_ticketId : N) : tx returndata :=
  w ← get;
  require (_ticketOwnerOf _ticketId w =? msg_sender e) NotOwner ;;
  let ticket := tickets w !!! _ticketId in
  require (negb (isCancelled ticket)) AlreadyCancelled ;;
  let currentEvent := events w !!! eventId ticket in
  let amount := refundAmount e currentEvent in
  (if 0 <? amount
   then _ ← external (transfer (this w) (msg_sender e) amount); mret tt
   else mret tt) ;;
  w ← get;
  let ticket := tickets w !!! _ticketId in
  modify (set_tickets
    (<[_ticketId := mkTicket (eventId ticket) (ticket_owner ticket) true]> (tickets w))) ;;
  _burn _ticketId ;;
  mret [].

Definition getEventDetails (_eventId : N) (w : World) : Event :=
  events w !!! _eventId.

Definition getUserTickets (_user : address) (w : World) : list N :=
  ownerBookings w !!! _user.

(** ** What a successful call writes *)

(** The world [createEvent] writes. *)
Definition created (w : World) (_name : string)
    (_date _price _totalTickets _refundDeadline : N) : World :=
  let n := eventIdCounter w + 1 in
  mkWorld (owner w) (this w) n (ticketIdCounter w)
          (<[n := mkEvent _name _date _price _totalTickets 0 _refundDeadline]> (events w))
          (tickets w) (ownerBookings w) (_owners w) (tixcoin w) (receivers w).

(** The world [bookTicket] writes once the pull has left the token in
    state [tok']. *)
Definition sold_one (ev : Event) : Event :=
  mkEvent (name ev) (date ev) (price ev) (totalTickets ev) (soldTickets ev + 1)
          (refundDeadline ev).

Definition booked_world (w : World) (buyer _eventId : N) (tok' : T) : World :=
  let t := ticketIdCounter w + 1 in
  mkWorld (owner w) (this w) (eventIdCounter w) t
          (<[_eventId := sold_one (events w !!! _eventId)]> (events w))
          (<[t := mkTicket _eventId buyer false]> (tickets w))
          (<[buyer := (ownerBookings w !!! buyer) ++ [t]]> (ownerBookings w))
          (<[t := buyer]> (_owners w))
          tok' (receivers w).

(** The world [cancelBooking] writes once the refund step has left the
    token in state [tok']. *)
Definition cancelled_ticket (t : Ticket) : Ticket :=
  mkTicket (eventId t) (ticket_owner t) true.

Definition cancelled_world (w : World) (_ticketId : N) (tok' : T) : World :=
  mkWorld (owner w) (this w) (eventIdCounter w) (ticketIdCounter w) (events w)
          (<[_ticketId := cancelled_ticket (tickets w !!! _ticketId)]> (tickets w))
          (ownerBookings w)
          (delete _ticketId (_owners w))
          tok' (receivers w).

(** The event a ticket belongs to, as [cancelBooking] looks it up. *)
Definition event_of (w : World) (_ticketId : N) : Event :=
  events w !!! eventId (tickets w !!! _ticketId).

(** Between [w] and [w'] the token has seen exactly one call from the
    ledger, a push of [amount] to the caller, whatever flag it answered; for
    an amount of zero it has seen no call at all. *)
Definition pushed (e : Env) (w w' : World) (amount : N) : Prop :=
  if 0 <? amount
  then exists b, transfer (this w) (msg_sender e) amount (tixcoin w)
                 = Returned b (tixcoin w')
  else tixcoin w' = tixcoin w.

(** The payment pull of [bookTicket] is refused: the token answers [false],
    or it reverts. *)
Definition pull_rejected (e : Env) (_eventId : N) (w : World) : Prop :=
  transferFrom (this w) (msg_sender e) (this w) (price (events w !!! _eventId))
               (tixcoin w) = Reverted \/
  exists tok', transferFrom (this w) (msg_sender e) (this w)
                            (price (events w !!! _eventId)) (tixcoin w)
               = Returned false tok'.

(** ** Transactions *)

(** The four state-changing entry points of the contract. *)
Inductive Op :=
| CreateEvent (_name : string) (_date _price _totalTickets _refundDeadline : N)
| WithdrawFunds
| BookTicket (_eventId : N)
| CancelBooking (_ticketId : N).

Definition call (e : Env) (op : Op) : tx returndata :=
  match op with
  | CreateEvent n d p t r => createEvent e n d p t r
  | WithdrawFunds => withdrawFunds e
  | BookTicket i => bookTicket e i
  | CancelBooking i => cancelBooking e i
  end.

(** The world a transaction leaves behind: the new one when the call
    returns, the old one untouched when it reverts. *)
Definition execute (e : Env) (op : Op) (w : World) : World :=
  match call e op w with
  | Ok _ w' => w'
  | Revert _ _ => w
  end.

(** A sequence of transactions, each with its own context. *)
Definition run (calls : list (Env * Op)) (w : World) : World :=
  fold_left (fun w c => execute (fst c) (snd c) w) calls w.

(** Call data decodes to [uint256] values. *)
Definition uint256_args (op : Op) : Prop :=
  match op with
  | CreateEvent _ d p t r =>
      d <= uint256_max /\ p <= uint256_max /\ t <= uint256_max /\ r <= uint256_max
  | WithdrawFunds => True
  | BookTicket i => i <= uint256_max
  | CancelBooking i => i <= uint256_max
  end.

(** The worlds the deployed contract can be in.  The contract is created at
    a fresh address, different from the deployer's.  Besides its own four entry
    points, the token changes state on behalf of other accounts, a
    holder can hand a ticket's asset to someone else through the transfer
    functions the contract inherits from ERC-721, and accounts come to hold
    code or change what their receiver hook answers. *)
Inductive reachable : World -> Prop :=
| reachable_deploy deployer self tok :
    deployer <> self -> reachable (constructor deployer self tok)
| reachable_call e op w res w' :
    reachable w -> uint256_args op -> call e op w = Ok res w' -> reachable w'
| reachable_token w tok' :
    reachable w -> reachable (set_tixcoin tok' w)
| reachable_handover w id to :
    reachable w -> is_Some (_owners w !! id) ->
    reachable (set_owners (<[id := to]> (_owners w)) w)
| reachable_accounts w r :
    reachable w -> reachable (set_receivers r w).

(** What every reachable world satisfies. *)
Record inv (w : World) : Prop := mkInv {
  inv_owner : owner w <> this w;
  inv_events_dom : forall id, is_Some (events w !! id) <-> 1 <= id <= eventIdCounter w;
  inv_events_cap : forall id ev, events w !! id = Some ev ->
                     soldTickets ev <= totalTickets ev /\ totalTickets ev <= uint256_max;
  inv_tickets_dom : forall id, is_Some (tickets w !! id) -> 1 <= id <= ticketIdCounter w;
  inv_owners : forall id, is_Some (_owners w !! id) ->
                 exists t, tickets w !! id = Some t /\ isCancelled t = false
}.

End Ledger.

(** ** A standard payment token *)

(** A token signals a refused transfer in one of two ways, both allowed by
    [IERC20]: it reverts (OpenZeppelin's ERC20, which TIXCOIN inherits
    unchanged), or it returns [false]. *)
Inductive signalling := RevertsOnFailure | ReturnsFalse.

(** Modelled from the spec: the Payment Token collaborator (section 6:
    [transferFrom(from, to, amount)], a pull that needs the prior
    authorisation of [from]; [transfer(to, amount)], a push out of the
    caller's balance; [balanceOf(address)]; a transfer fails on insufficient
    balance or insufficient authorisation).  The token's code, OpenZeppelin's
    ERC20 behind TIXCOIN, is not among the sources; from it comes the
    unlimited allowance: an allowance of 2^256 - 1 authorises every amount
    and is not spent by a pull. *)
Record Token := mkToken {
  balances : gmap N N;
  allowances : gmap (N * N) N;
  on_failure : signalling
}.

Definition balance (t : Token) (a : address) : N := default 0 (balances t !! a).
Definition allowance (t : Token) (holder spender : address) : N :=
  default 0 (allowances t !! (holder, spender)).

Definition refuse (t : Token) : call_result bool Token :=
  match on_failure t with
  | RevertsOnFailure => Reverted
  | ReturnsFalse => Returned false t
  end.

(** Debit [from], then credit [to]. *)
Definition move (from to : address) (amount : N) (b : gmap N N) : gmap N N :=
  let b1 := <[from := default 0 (b !! from) - amount]> b in
  <[to := default 0 (b1 !! to) + amount]> b1.

Definition token_transfer (caller to : address) (amount : N) (t : Token)
    : call_result bool Token :=
  if amount <=? balance t caller
  then Returned true (mkToken (move caller to amount (balances t)) (allowances t)
                              (on_failure t))
  else refuse t.

(** The allowance of [spender] covers a pull of [amount] from [holder]. *)
Definition authorised (t : Token) (holder spender : address) (amount : N) : bool :=
  (uint256_max <=? allowance t holder spender) || (amount <=? allowance t holder spender).

(** The allowances after [spender] has pulled [amount] from [holder]. *)
Definition spent (t : Token) (holder spender : address) (amount : N) : gmap (N * N) N :=
  if allowance t holder spender <? uint256_max
  then <[(holder, spender) := allowance t holder spender - amount]> (allowances t)
  else allowances t.

Definition token_transferFrom (caller from to : address) (amount : N) (t : Token)
    : call_result bool Token :=
  if authorised t from caller amount && (amount <=? balance t from)
  then Returned true
         (mkToken (move from to amount (balances t)) (spent t from caller amount)
                  (on_failure t))
  else refuse t.

#[global] Instance Token_IERC20 : IERC20 Token := {
  balanceOf := balance;
  transfer := token_transfer;
  transferFrom := token_transferFrom
}.

(** The token balance of [to] has grown by exactly [amount] between the
    worlds [w] and [w'], and the ledger's custody has shrunk by as much. *)
Definition paid (w w' : World (T := Token)) (to : address) (amount : N) : Prop :=
  balance (tixcoin w') to = balance (tixcoin w) to + amount /\
  balance (tixcoin w') (this w) + amount = balance (tixcoin w) (this w).

(** The standard token carries out a push of [amount] from the ledger to the
    caller: the caller is not the ledger itself, and the token either reverts
    on failure or finds the amount in custody. *)
Definition honoured (e : Env) (w : World (T := Token)) (amount : N) : Prop :=
  msg_sender e <> this w /\
  (on_failure (tixcoin w) = RevertsOnFailure \/ amount <= balance (tixcoin w) (this w)).

(** ** A small deployment to run the contract on *)

Module Scenario.

Definition admin : address := 1.
Definition buyer : address := 2.
Definition ledger : address := 100.

(** An account without tokens. *)
Definition stranger : address := 3.

(** The buyer holds 1000 units and has authorised the ledger for all of it. *)
Definition token0 (s : signalling) : Token :=
  mkToken {[ buyer := 1000 ]} {[ (buyer, ledger) := 1000 ]} s.

Definition as_admin (now : N) : Env := mkEnv admin now.
Definition as_buyer (now : N) : Env := mkEnv buyer now.

Definition deployed (s : signalling) : World := constructor admin ledger (token0 s).

(** One event: price 101, two seats, refund deadline at time 50,
    scheduled for time 60; created at time 10. *)
Definition with_event (s : signalling) : World :=
  execute (as_admin 10) (CreateEvent "gala" 60 101 2 50) (deployed s).

(** The buyer books a seat at time 20. *)
Definition booked (s : signalling) : World :=
  execute (as_buyer 20) (BookTicket 1) (with_event s).

(** The buyer cancels ticket 1 at time 30, before the deadline. *)
Definition cancelled (s : signalling) : World :=
  execute (as_buyer 30) (CancelBooking 1) (booked s).

(** The administrator sweeps the custody balance at time 25, after the
    booking and before any cancellation. *)
Definition swept (s : signalling) : World :=
  execute (as_admin 25) WithdrawFunds (booked s).

(** The buyer books the second and last seat at time 21. *)
Definition sold_out (s : signalling) : World :=
  execute (as_buyer 21) (BookTicket 1) (booked s).


(** The scenario of the specification: an event with two seats at price
    100; three bookings, the third one refused; ticket 1 cancelled before the
    deadline, ticket 2 after it. *)
Definition round_trip (s : signalling) : World :=
  run [ (as_admin 1, CreateEvent "show" 60 100 2 50);
        (as_buyer 2, BookTicket 1);
        (as_buyer 3, BookTicket 1);
        (as_buyer 4, BookTicket 1);
        (as_buyer 5, CancelBooking 1);
        (as_buyer 55, CancelBooking 2) ]
      (deployed s).

End Scenario.

(** ** Bookkeeping across the ledger's maps *)

Section Bookkeeping.
Context {T : Type} `{Tok : IERC20 T}.

(** The ticket records that name [_eventId] as their event. *)
Definition tickets_of (_eventId : N) (w : World (T := T)) : gmap N Ticket :=
  filter (fun kv => eventId (snd kv) = _eventId) (tickets w).

(** Two event records that differ at most in [soldTickets]. *)
Definition same_terms (ev ev' : Event) : Prop :=
  name ev' = name ev /\ date ev' = date ev /\ price ev' = price ev /\
  totalTickets ev' = totalTickets ev /\ refundDeadline ev' = refundDeadline ev.

(** A ticket record that kept its event and purchaser, and a cancelled flag
    that was not taken back. *)
Definition same_ticket (t t' : Ticket) : Prop :=
  eventId t' = eventId t /\ ticket_owner t' = ticket_owner t /\
  (isCancelled t = true -> isCancelled t' = true).

(** How tickets, holders, the purchaser index and the sold counts of a
    reachable world fit together. *)
Record ledger_inv (w : World (T := T)) : Prop := mkLedgerInv {
  li_tickets_dom : forall id, 1 <= id <= ticketIdCounter w -> is_Some (tickets w !! id);
  li_ticket_event : forall id t, tickets w !! id = Some t ->
                      1 <= eventId t <= eventIdCounter w;
  li_live : forall id t, tickets w !! id = Some t -> isCancelled t = false ->
              is_Some (_owners w !! id);
  li_index_sound : forall u id, id ∈ ownerBookings w !!! u ->
                     exists t, tickets w !! id = Some t /\ ticket_owner t = u;
  li_index_complete : forall id t, tickets w !! id = Some t ->
                        id ∈ ownerBookings w !!! ticket_owner t;
  li_index_nodup : forall u, NoDup (ownerBookings w !!! u);
  li_sold_count : forall id,
                    soldTickets (events w !!! id) = N.of_nat (size (tickets_of id w))
}.

End Bookkeeping.

(** ** The front end's reading of the ledger *)

(** The ids [1 .. n], as the loop [for (let i = 1; i <= n; i++)] visits
    them. *)
Definition ids_upto (n : N) : list N := N.of_nat <$> seq 1 (N.to_nat n).

(** Up to this bound a JavaScript number counts exactly. *)
Definition js_max_safe : N := 2 ^ 53.

(** An entry of [loadedEvents]: the loop index as [id], and the six fields
    copied from the record returned by [getEventDetails]. *)
Record LoadedEvent := mkLoadedEvent {
  loaded_id : N;
  loaded : Event
}.

(** An entry of [loadedUserTickets]. *)
Record UserTicket := mkUserTicket {
  shown_id : string;
  shown_eventName : string;
  shown_isCancelled : bool
}.

Section FetchData.
Context {T : Type} `{Tok : IERC20 T}.

(** The outcome of [e.id === ticketInfo.eventId], between the loop index
    and an integer decoded from the contract's answer.  It depends on how
    the contract library represents decoded integers, which the sources do
    not fix. *)
Variable strict_equal : N -> N -> bool.

Definition loadedEvents (w : World (T := T)) : list LoadedEvent :=
  (fun i => mkLoadedEvent i (getEventDetails i w)) <$> ids_upto (eventIdCounter w).

(** The events offered for booking: [events.filter(e => e.soldTickets <
    e.totalTickets)]. *)
Definition availableEvents (w : World (T := T)) : list LoadedEvent :=
  List.filter (fun e => soldTickets (loaded e) <? totalTickets (loaded e))
              (loadedEvents w).

(** [(loadedEvents.find(...) || { name: "Unknown Event" }).name] *)
Definition eventName_of (ticketInfo : Ticket) (w : World (T := T)) : string :=
  match List.find (fun e => strict_equal (loaded_id e) (eventId ticketInfo))
                  (loadedEvents w) with
  | Some eventInfo => name (loaded eventInfo)
  | None => "Unknown Event"
  end.

(** One ticket id of the purchaser index: [null] when [ownerOf] throws. *)
Definition loadUserTicket (w : World (T := T)) (ticketId : N) : option UserTicket :=
  let ticketInfo := tickets w !!! ticketId in
  let eventName := eventName_of ticketInfo w in
  match ownerOf ticketId w with
  | Some _ => Some (mkUserTicket (pretty ticketId) eventName false)
  | None => None
  end.

(** The list handed to [setUserTickets],
    [loadedUserTickets.filter(t => t !== null)].  It is built under
    [if (!isAdmin)], where [isAdmin] is the flag in the component's state
    when [fetchData] runs ([connectWallet] sets it after the account, from
    a comparison with [owner()]); with the flag set no list is built and
    [setUserTickets] is not called. *)
Definition loadedUserTickets (isAdmin : bool) (account : address) (w : World (T := T))
    : option (list UserTicket) :=
  if negb isAdmin
  then Some (omap (loadUserTicket w) (getUserTickets account w))
  else None.

End FetchData.

(** ** The booking flow of the front end *)



(** ** A token that refuses every transfer *)

(** Another implementation of [IERC20], used as an input: its transfers are
    suspended, and it reports each refused transfer by returning [false]. *)
Record Suspended := mkSuspended {
  held : gmap N N
}.

#[global] Instance Suspended_IERC20 : IERC20 Suspended := {
  balanceOf := fun t a => default 0 (held t !! a);
  transfer := fun _ _ _ t => Returned false t;
  transferFrom := fun _ _ _ _ t => Returned false t
}.

(** ** More worlds of the small deployment *)

Module Flows.

Definition friend : address := 4.

(** The buyer hands ticket 1 to a friend through the inherited ERC-721
    transfer. *)
Definition handed_over (s : signalling) : World (T := Token) :=
  set_owners (<[1 := friend]> (_owners (Scenario.booked s))) (Scenario.booked s).

(** A free event, created after the first one. *)
Definition with_free_event (s : signalling) : World :=
  execute (Scenario.as_admin 11) (CreateEvent "open day" 60 0 5 50) (Scenario.booked s).

(** The buyer books the free event at time 22 (ticket 2). *)
Definition free_booked (s : signalling) : World :=
  execute (Scenario.as_buyer 22) (BookTicket 2) (with_free_event s).

(** A ledger whose token holds 300 units in its name and has suspended
    transfers. *)
Definition suspended : World (T := Suspended) :=
  constructor Scenario.admin Scenario.ledger (mkSuspended {[ Scenario.ledger := 300 ]}).

End Flows.

(** * Properties *)

(** ** Unfolding the monad *)

Ltac unfold_tx :=
  unfold call, createEvent, withdrawFunds, bookTicket, cancelBooking, onlyOwner,
         _safeMint, _mint, checkOnERC721Received, _burn, _ticketOwnerOf, ownerOf,
         require, checked_inc, external,
         get, modify, revert, mbind, tx_bind, mret, tx_ret;
  cbn [owner this eventIdCounter ticketIdCounter events tickets ownerBookings
       _owners tixcoin receivers set_eventIdCounter set_ticketIdCounter set_events
       set_tickets set_ownerBookings set_owners set_tixcoin set_receivers].

(** Rewrites a range test known to hold. *)
Ltac in_range H :=
  match type of H with
  | 1 <= ?i <= ?c =>
      replace ((0 <? i) && (i <=? c)) with true
        by (symmetry; apply andb_true_iff;
            split; [apply N.ltb_lt | apply N.leb_le]; lia)
  end.

Section Normal_forms.
Context {T : Type} `{Tok : IERC20 T}.
Implicit Types (w : World (T := T)) (e : Env).

(** Each entry point as one decision tree: which check fails first, with
    which error, and what had been written by then. *)

Lemma createEvent_unfold e n d p t r w :
  createEvent e n d p t r w =
    if msg_sender e =? owner w
    then if eventIdCounter w <? uint256_max
         then Ok [] (created w n d p t r)
         else Revert Overflow w
    else Revert Unauthorized w.
Proof.
  unfold_tx.
  destruct (msg_sender e =? owner w); cbn; [|reflexivity].
  destruct (eventIdCounter w <? uint256_max); reflexivity.
Qed.

Lemma withdrawFunds_unfold e w :
  withdrawFunds e w =
    if msg_sender e =? owner w
    then if 0 <? balanceOf (tixcoin w) (this w)
         then match transfer (this w) (owner w) (balanceOf (tixcoin w) (this w))
                             (tixcoin w) with
              | Returned _ tok' => Ok [] (set_tixcoin tok' w)
              | Reverted => Revert (PaymentFailed CallReverted) w
              end
         else Revert NothingToWithdraw w
    else Revert Unauthorized w.
Proof.
  unfold_tx.
  destruct (msg_sender e =? owner w); cbn; [|reflexivity].
  destruct (0 <? balanceOf (tixcoin w) (this w)); cbn; [|reflexivity].
  destruct (transfer _ _ _ _); reflexivity.
Qed.

Lemma bookTicket_unfold e i w :
  bookTicket e i w =
    if (0 <? i) && (i <=? eventIdCounter w)
    then if soldTickets (events w !!! i) <? totalTickets (events w !!! i)
         then match transferFrom (this w) (msg_sender e) (this w)
                                 (price (events w !!! i)) (tixcoin w) with
              | Reverted => Revert (PaymentFailed CallReverted) w
              | Returned false tok' =>
                  Revert (PaymentFailed ReturnedFalse) (set_tixcoin tok' w)
              | Returned true tok' =>
                  if soldTickets (events w !!! i) <? uint256_max
                  then if ticketIdCounter w <? uint256_max
                       then if msg_sender e =? 0
                            then Revert InvalidReceiver
                                   (set_owners (_owners w)
                                      (booked_world w (msg_sender e) i tok'))
                            else
                              match _owners w !! (ticketIdCounter w + 1) with
                              | Some _ =>
                                  Revert RegistryFailed
                                    (set_owners (_owners w)
                                       (booked_world w (msg_sender e) i tok'))
                              | None =>
                                  match receivers w !! msg_sender e with
                                  | None | Some Accepts =>
                                      Ok [] (booked_world w (msg_sender e) i tok')
                                  | Some Declines =>
                                      Revert InvalidReceiver
                                        (booked_world w (msg_sender e) i tok')
                                  | Some Throws =>
                                      Revert ReceiverReverted
                                        (booked_world w (msg_sender e) i tok')
                                  end
                              end
                       else Revert Overflow
                              (set_events (<[i := sold_one (events w !!! i)]> (events w))
                                          (set_tixcoin tok' w))
                  else Revert Overflow (set_tixcoin tok' w)
              end
         else Revert SoldOut w
    else Revert NotFound w.
Proof.
  unfold_tx.
  destruct ((0 <? i) && (i <=? eventIdCounter w)); cbn; [|reflexivity].
  destruct (soldTickets (events w !!! i) <? totalTickets (events w !!! i));
    cbn; [|reflexivity].
  destruct (transferFrom _ _ _ _ _) as [[] tok'|]; cbn; try reflexivity.
  destruct (soldTickets (events w !!! i) <? uint256_max); cbn; [|reflexivity].
  destruct (ticketIdCounter w <? uint256_max); cbn; [|reflexivity].
  destruct (msg_sender e =? 0); cbn; [reflexivity|].
  destruct (_owners w !! (ticketIdCounter w + 1)); cbn; [reflexivity|].
  destruct (receivers w !! msg_sender e) as [[]|]; reflexivity.
Qed.

Lemma cancelBooking_unfold e i w :
  cancelBooking e i w =
    if _ticketOwnerOf i w =? msg_sender e
    then if isCancelled (tickets w !!! i)
         then Revert AlreadyCancelled w
         else
           let amount := refundAmount e (event_of w i) in
           let burn tok' :=
             match _owners w !! i with
             | Some _ => Ok [] (cancelled_world w i tok')
             | None => Revert RegistryFailed
                         (set_owners (_owners w) (cancelled_world w i tok'))
             end in
           if 0 <? amount
           then match transfer (this w) (msg_sender e) amount (tixcoin w) with
                | Returned _ tok' => burn tok'
                | Reverted => Revert (PaymentFailed CallReverted) w
                end
           else burn (tixcoin w)
    else Revert NotOwner w.
Proof.
  unfold_tx. unfold event_of.
  destruct (_ =? msg_sender e); cbn; [|reflexivity].
  destruct (isCancelled (tickets w !!! i)); cbn; [reflexivity|].
  destruct (0 <? refundAmount e _); cbn.
  - destruct (transfer _ _ _ _) as [b tok'|]; cbn; [|reflexivity].
    destruct (_owners w !! i); reflexivity.
  - destruct w; cbn. destruct (_ !! i); reflexivity.
Qed.

End Normal_forms.

(** ** Reading a successful call backwards *)

Section Inversion.
Context {T : Type} `{Tok : IERC20 T}.
Implicit Types (w : World (T := T)) (e : Env).

Lemma createEvent_Ok e n d p t r w res w' :
  createEvent e n d p t r w = Ok res w' ->
  msg_sender e = owner w /\ eventIdCounter w < uint256_max /\
  res = [] /\ w' = created w n d p t r.
Proof.
  rewrite createEvent_unfold.
  destruct (msg_sender e =? owner w) eqn:Hs; [|discriminate].
  destruct (eventIdCounter w <? uint256_max) eqn:Hc; [|discriminate].
  intros [= <- <-]. apply N.eqb_eq in Hs. apply N.ltb_lt in Hc. auto.
Qed.

Lemma withdrawFunds_Ok e w res w' :
  withdrawFunds e w = Ok res w' ->
  msg_sender e = owner w /\ 0 < balanceOf (tixcoin w) (this w) /\ res = [] /\
  exists b tok', transfer (this w) (owner w) (balanceOf (tixcoin w) (this w))
                          (tixcoin w) = Returned b tok' /\
                 w' = set_tixcoin tok' w.
Proof.
  rewrite withdrawFunds_unfold.
  destruct (msg_sender e =? owner w) eqn:Hs; [|discriminate].
  destruct (0 <? _) eqn:Hb; [|discriminate].
  destruct (transfer _ _ _ _) as [b tok'|] eqn:Ht; [|discriminate].
  intros [= <- <-]. apply N.eqb_eq in Hs. apply N.ltb_lt in Hb. eauto 8.
Qed.

Lemma bookTicket_Ok e i w res w' :
  bookTicket e i w = Ok res w' ->
  1 <= i <= eventIdCounter w /\
  soldTickets (events w !!! i) < totalTickets (events w !!! i) /\
  ticketIdCounter w < uint256_max /\
  _owners w !! (ticketIdCounter w + 1) = None /\
  res = [] /\
  exists tok', transferFrom (this w) (msg_sender e) (this w)
                            (price (events w !!! i)) (tixcoin w) = Returned true tok' /\
               w' = booked_world w (msg_sender e) i tok'.
Proof.
  rewrite bookTicket_unfold.
  destruct ((0 <? i) && (i <=? eventIdCounter w)) eqn:Hr; [|discriminate].
  destruct (soldTickets _ <? totalTickets _) eqn:Hs; [|discriminate].
  destruct (transferFrom _ _ _ _ _) as [[] tok'|] eqn:Hp; try discriminate.
  destruct (soldTickets _ <? uint256_max); [|discriminate].
  destruct (ticketIdCounter w <? uint256_max) eqn:Hc; [|discriminate].
  destruct (msg_sender e =? 0); [discriminate|].
  destruct (_owners w !! _) eqn:Ho; [discriminate|].
  apply andb_true_iff in Hr as [H0 H1].
  apply N.ltb_lt in H0, Hs, Hc. apply N.leb_le in H1.
  destruct (receivers w !! msg_sender e) as [[]|]; try discriminate;
    intros [= <- <-]; repeat split; try lia; eauto.
Qed.



Lemma cancelBooking_Ok e i w res w' :
  cancelBooking e i w = Ok res w' ->
  _ticketOwnerOf i w = msg_sender e /\
  isCancelled (tickets w !!! i) = false /\
  is_Some (_owners w !! i) /\
  res = [] /\
  exists tok', w' = cancelled_world w i tok' /\
    if 0 <? refundAmount e (event_of w i)
    then exists b, transfer (this w) (msg_sender e) (refundAmount e (event_of w i))
                            (tixcoin w) = Returned b tok'
    else tok' = tixcoin w.
Proof.
  rewrite cancelBooking_unfold.
  destruct (_ =? msg_sender e) eqn:Hs; [|discriminate].
  destruct (isCancelled _) eqn:Hc; [discriminate|].
  apply N.eqb_eq in Hs. cbn zeta.
  destruct (0 <? refundAmount e _) eqn:Ha.
  - destruct (transfer _ _ _ _) as [b tok'|] eqn:Ht; [|discriminate].
    destruct (_owners w !! i) eqn:Ho; [|discriminate].
    intros [= <- <-]. repeat split; eauto.
  - destruct (_owners w !! i) eqn:Ho; [|discriminate].
    intros [= <- <-]. repeat split; eauto.
Qed.

(** A transaction either went through, or reverted and changed nothing. *)
Lemma execute_cases e op w :
  (exists res, call e op w = Ok res (execute e op w)) \/
  ((exists err dirty, call e op w = Revert err dirty) /\ execute e op w = w).
Proof.
  unfold execute. destruct (call e op w) as [res w'|err dirty]; eauto.
Qed.

Lemma execute_revert e op w err dirty :
  call e op w = Revert err dirty -> execute e op w = w.
Proof. unfold execute. by intros ->. Qed.

End Inversion.

(** ** The invariant of reachable worlds *)

Section Invariant.
Context {T : Type} `{Tok : IERC20 T}.
Implicit Types (w : World (T := T)) (e : Env).

Lemma inv_constructor deployer self (tok : T) :
  deployer <> self -> inv (constructor deployer self tok).
Proof.
  intros Hne. split; cbn.
  - exact Hne.
  - intros id. rewrite lookup_empty. split; [intros [? [=]] | lia].
  - intros id ev. rewrite lookup_empty. discriminate.
  - intros id. rewrite lookup_empty. intros [? [=]].
  - intros id. rewrite lookup_empty. intros [? [=]].
Qed.

Lemma inv_createEvent w n d p t r :
  inv w -> eventIdCounter w < uint256_max -> t <= uint256_max ->
  inv (created w n d p t r).
Proof.
  intros [Hn Hd Hc Ht Ho] Hlt Hcap. split; cbn.
  - exact Hn.
  - intros id. rewrite lookup_insert_is_Some, Hd. lia.
  - intros id ev. rewrite lookup_insert. case_decide.
    + intros [= <-]. cbn. lia.
    + apply Hc.
  - exact Ht.
  - exact Ho.
Qed.

Lemma inv_bookTicket w buyer i (tok' : T) :
  inv w -> 1 <= i <= eventIdCounter w ->
  soldTickets (events w !!! i) < totalTickets (events w !!! i) ->
  inv (booked_world w buyer i tok').
Proof.
  intros [Hn Hd Hc Ht Ho] Hi Hs.
  destruct (proj2 (Hd i) Hi) as [ev Hev].
  unfold booked_world. rewrite (lookup_total_correct _ _ _ Hev) in *.
  split; cbn.
  - exact Hn.
  - intros id. rewrite lookup_insert_is_Some, <- Hd.
    split; [intros [<- | [_ ?]]; eauto | intros ?; destruct (decide (i = id)); eauto].
  - intros id ev'. rewrite lookup_insert. case_decide.
    + intros [= <-]. cbn. destruct (Hc _ _ Hev). lia.
    + apply Hc.
  - intros id. rewrite lookup_insert_is_Some. intros [<- | [_ H]]; [lia|].
    apply Ht in H. lia.
  - intros id. rewrite lookup_insert_is_Some. intros [<- | [Hne H]].
    + rewrite lookup_insert_eq. eauto.
    + rewrite lookup_insert_ne by done. auto.
Qed.

Lemma inv_cancelBooking w i (tok' : T) :
  inv w -> is_Some (_owners w !! i) -> inv (cancelled_world w i tok').
Proof.
  intros [Hn Hd Hc Ht Ho] Hi. split; cbn; auto.
  - intros id. rewrite lookup_insert_is_Some. intros [<- | [_ H]]; [|auto].
    destruct (Ho _ Hi) as (t & Hti & _). apply Ht. eauto.
  - intros id. rewrite lookup_delete_is_Some. intros [Hne H].
    rewrite lookup_insert_ne by done. auto.
Qed.

Lemma inv_set_tixcoin w (tok' : T) : inv w -> inv (set_tixcoin tok' w).
Proof. intros [Hn Hd Hc Ht Ho]. split; cbn; auto. Qed.

Lemma inv_call e op w res w' :
  inv w -> uint256_args op -> call e op w = Ok res w' -> inv w'.
Proof.
  intros Hinv Hargs. destruct op as [n d p t r| |i|i]; cbn [call].
  - intros (_ & Hlt & _ & ->)%createEvent_Ok.
    apply inv_createEvent; cbn in Hargs; tauto.
  - intros (_ & _ & _ & b & tok' & _ & ->)%withdrawFunds_Ok.
    by apply inv_set_tixcoin.
  - intros (Hi & Hs & _ & _ & _ & tok' & _ & ->)%bookTicket_Ok.
    by apply inv_bookTicket.
  - intros (_ & _ & Ho & _ & tok' & -> & _)%cancelBooking_Ok.
    by apply inv_cancelBooking.
Qed.

Lemma reachable_inv w : reachable w -> inv w.
Proof.
  induction 1 as [deployer self tok Hne | e op w res w' _ IH Hargs Hcall
                 | w tok' _ IH | w id to _ IH Hid | w r _ IH].
  - by apply inv_constructor.
  - eapply inv_call; eauto.
  - by apply inv_set_tixcoin.
  - destruct IH as [Hn Hd Hc Ht Ho]. split; cbn; auto.
    intros id'. rewrite lookup_insert_is_Some. intros [<- | [_ H]]; auto.
  - destruct IH as [Hn Hd Hc Ht Ho]. split; cbn; auto.
Qed.

Lemma reachable_execute e op w :
  reachable w -> uint256_args op -> reachable (execute e op w).
Proof.
  intros Hr Hargs. destruct (execute_cases e op w) as [[res Hcall] | [_ ->]].
  - by eapply reachable_call.
  - exact Hr.
Qed.

Lemma reachable_run calls w :
  reachable w -> Forall (fun c => uint256_args (snd c)) calls ->
  reachable (run calls w).
Proof.
  intros Hr Hall. revert w Hr.
  induction Hall as [|[e op] calls Hargs _ IH]; intros w Hr; cbn.
  - exact Hr.
  - apply IH. by apply reachable_execute.
Qed.

End Invariant.

(** ** The scenario's worlds are reachable *)

Lemma scenario_call_with_event s :
  call (Scenario.as_admin 10) (CreateEvent "gala" 60 101 2 50) (Scenario.deployed s)
  = Ok [] (Scenario.with_event s).
Proof. destruct s; vm_compute; reflexivity. Defined.

Lemma scenario_call_booked s :
  call (Scenario.as_buyer 20) (BookTicket 1) (Scenario.with_event s)
  = Ok [] (Scenario.booked s).
Proof. destruct s; vm_compute; reflexivity. Defined.

Lemma scenario_call_sold_out s :
  call (Scenario.as_buyer 21) (BookTicket 1) (Scenario.booked s)
  = Ok [] (Scenario.sold_out s).
Proof. destruct s; vm_compute; reflexivity. Defined.

Lemma scenario_call_cancelled s :
  call (Scenario.as_buyer 30) (CancelBooking 1) (Scenario.booked s)
  = Ok [] (Scenario.cancelled s).
Proof. destruct s; vm_compute; reflexivity. Defined.

Lemma scenario_call_swept s :
  call (Scenario.as_admin 25) WithdrawFunds (Scenario.booked s)
  = Ok [] (Scenario.swept s).
Proof. destruct s; vm_compute; reflexivity. Defined.

Lemma uint256_small n : n < 1000 -> n <= uint256_max.
Proof. unfold uint256_max. lia. Defined.

Lemma scenario_reachable_with_event s : reachable (Scenario.with_event s).
Proof.
  eapply reachable_call; [| |apply scenario_call_with_event].
  - apply reachable_deploy. discriminate.
  - cbn. repeat split; apply uint256_small; reflexivity.
Defined.

Lemma scenario_reachable_booked s : reachable (Scenario.booked s).
Proof.
  eapply reachable_call; [apply scenario_reachable_with_event| |apply scenario_call_booked].
  apply uint256_small. reflexivity.
Defined.

Lemma scenario_reachable_sold_out s : reachable (Scenario.sold_out s).
Proof.
  eapply reachable_call; [apply scenario_reachable_booked| |apply scenario_call_sold_out].
  apply uint256_small. reflexivity.
Defined.

Lemma scenario_reachable_cancelled s : reachable (Scenario.cancelled s).
Proof.
  eapply reachable_call; [apply scenario_reachable_booked| |apply scenario_call_cancelled].
  apply uint256_small. reflexivity.
Defined.

Lemma scenario_reachable_swept s : reachable (Scenario.swept s).
Proof.
  eapply reachable_call; [apply scenario_reachable_booked| |apply scenario_call_swept].
  exact I.
Defined.

(** ** Sold counts stay within capacity and never go down *)

Section Sold_counts.
Context {T : Type} `{Tok : IERC20 T}.
Implicit Types (w : World (T := T)) (e : Env).

Lemma inv_sold_le_total w id :
  inv w -> soldTickets (getEventDetails id w) <= totalTickets (getEventDetails id w).
Proof.
  intros Hinv. unfold getEventDetails. rewrite lookup_total_alt.
  destruct (events w !! id) as [ev|] eqn:Hev; cbn.
  - by destruct (inv_events_cap w Hinv id ev Hev).
  - lia.
Qed.

Lemma call_sold_mono e op w res w' id :
  inv w -> call e op w = Ok res w' ->
  soldTickets (getEventDetails id w) <= soldTickets (getEventDetails id w').
Proof.
  intros Hinv. unfold getEventDetails.
  destruct op as [n d p t r| |i|i]; cbn [call].
  - intros (_ & _ & _ & ->)%createEvent_Ok. cbn.
    destruct (decide (eventIdCounter w + 1 = id)) as [<-|Hne].
    + rewrite lookup_total_insert_eq, lookup_total_alt.
      destruct (events w !! (eventIdCounter w + 1)) eqn:Hev; cbn; [|lia].
      assert (is_Some (events w !! (eventIdCounter w + 1))) as Hs by eauto.
      apply (inv_events_dom w Hinv) in Hs. lia.
    + by rewrite lookup_total_insert_ne.
  - intros (_ & _ & _ & b & tok' & _ & ->)%withdrawFunds_Ok. cbn. lia.
  - intros (_ & _ & _ & _ & _ & tok' & _ & ->)%bookTicket_Ok. cbn.
    destruct (decide (i = id)) as [<-|Hne].
    + rewrite lookup_total_insert_eq. cbn. lia.
    + by rewrite lookup_total_insert_ne.
  - intros (_ & _ & _ & _ & tok' & -> & _)%cancelBooking_Ok. cbn. lia.
Qed.

Lemma execute_sold_mono e op w id :
  inv w ->
  soldTickets (getEventDetails id w)
  <= soldTickets (getEventDetails id (execute e op w)).
Proof.
  intros Hinv. destruct (execute_cases e op w) as [[res Hcall] | [_ ->]].
  - by eapply call_sold_mono.
  - lia.
Qed.

Lemma run_sold_mono calls w id :
  reachable w -> Forall (fun c => uint256_args (snd c)) calls ->
  soldTickets (getEventDetails id w)
  <= soldTickets (getEventDetails id (run calls w)).
Proof.
  intros Hr Hall. revert w Hr.
  induction Hall as [|[e op] calls Hargs _ IH]; intros w Hr; cbn.
  - lia.
  - etrans; [|apply IH; by apply reachable_execute].
    apply execute_sold_mono. by apply reachable_inv.
Qed.

(** C1.  In every world the contract can reach, every event has sold at most
    its capacity.  This still holds after any one of the four operations and
    after any sequence of them, and no operation lowers the sold count of
    any event; a successful cancelBooking leaves every sold count exactly as
    it was. *)
Theorem sold_within_capacity_and_monotone w :
  reachable w ->
  (forall id, soldTickets (getEventDetails id w) <= totalTickets (getEventDetails id w)) /\
  (forall e op, uint256_args op ->
     forall id,
       soldTickets (getEventDetails id (execute e op w))
         <= totalTickets (getEventDetails id (execute e op w)) /\
       soldTickets (getEventDetails id w)
         <= soldTickets (getEventDetails id (execute e op w))) /\
  (forall calls, Forall (fun c => uint256_args (snd c)) calls ->
     forall id,
       soldTickets (getEventDetails id (run calls w))
         <= totalTickets (getEventDetails id (run calls w)) /\
       soldTickets (getEventDetails id w)
         <= soldTickets (getEventDetails id (run calls w))) /\
  (forall e _ticketId res w',
     cancelBooking e _ticketId w = Ok res w' ->
     forall id, soldTickets (getEventDetails id w') = soldTickets (getEventDetails id w)).
Proof.
  intros Hr. pose proof (reachable_inv w Hr) as Hinv. split; [|split; [|split]].
  - intros id. by apply inv_sold_le_total.
  - intros e op Hargs id. split.
    + apply inv_sold_le_total, reachable_inv. by apply reachable_execute.
    + by apply execute_sold_mono.
  - intros calls Hall id. split.
    + apply inv_sold_le_total, reachable_inv. by apply reachable_run.
    + by apply run_sold_mono.
  - intros e i res w' (_ & _ & _ & _ & tok' & -> & _)%cancelBooking_Ok id.
    reflexivity.
Qed.

End Sold_counts.

Lemma sold_within_capacity_and_monotone_witness :
  soldTickets (getEventDetails 1 (Scenario.booked RevertsOnFailure))
    <= totalTickets (getEventDetails 1 (Scenario.booked RevertsOnFailure)) /\
  soldTickets (getEventDetails 1 (Scenario.booked RevertsOnFailure))
    <= soldTickets (getEventDetails 1
         (execute (Scenario.as_buyer 30) (CancelBooking 1)
                  (Scenario.booked RevertsOnFailure))).
Proof.
  destruct (sold_within_capacity_and_monotone (Scenario.booked RevertsOnFailure)
              (scenario_reachable_booked RevertsOnFailure)) as (H1 & H2 & _).
  split; [apply H1|].
  apply (H2 (Scenario.as_buyer 30) (CancelBooking 1)).
  apply uint256_small. reflexivity.
Defined.

(** ** Booking: the order of the checks *)

Section Booking_failures.
Context {T : Type} `{Tok : IERC20 T}.
Implicit Types (w : World (T := T)) (e : Env).

(** C2.  bookTicket checks in this order, the first failure deciding the
    error: an id outside [1, eventIdCounter] gives NotFound; otherwise a sold
    count that has reached the capacity (equal to it, or above) gives
    SoldOut; otherwise a refused payment pull gives PaymentFailed.  At each of
    these failures nothing has been written to the ledger's storage (after a
    pull answered with false, only the token may have moved), and whenever
    bookTicket fails the world after the transaction is the world before it:
    sold count, both counters, ticket store and purchaser index are
    unchanged. *)
Theorem bookTicket_failures e _eventId w :
  (~ (1 <= _eventId <= eventIdCounter w) ->
     bookTicket e _eventId w = Revert NotFound w) /\
  (1 <= _eventId <= eventIdCounter w ->
   totalTickets (events w !!! _eventId) <= soldTickets (events w !!! _eventId) ->
     bookTicket e _eventId w = Revert SoldOut w) /\
  (1 <= _eventId <= eventIdCounter w ->
   soldTickets (events w !!! _eventId) < totalTickets (events w !!! _eventId) ->
   pull_rejected e _eventId w ->
     exists how tok',
       bookTicket e _eventId w = Revert (PaymentFailed how) (set_tixcoin tok' w)) /\
  (forall err dirty, bookTicket e _eventId w = Revert err dirty ->
     execute e (BookTicket _eventId) w = w /\
     soldTickets (getEventDetails _eventId (execute e (BookTicket _eventId) w))
       = soldTickets (getEventDetails _eventId w) /\
     eventIdCounter (execute e (BookTicket _eventId) w) = eventIdCounter w /\
     ticketIdCounter (execute e (BookTicket _eventId) w) = ticketIdCounter w /\
     tickets (execute e (BookTicket _eventId) w) = tickets w /\
     ownerBookings (execute e (BookTicket _eventId) w) = ownerBookings w).
Proof.
  split; [|split; [|split]].
  - intros Hout. rewrite bookTicket_unfold.
    destruct ((0 <? _eventId) && (_eventId <=? eventIdCounter w)) eqn:Hr; [|done].
    apply andb_true_iff in Hr as [H0%N.ltb_lt H1%N.leb_le]. lia.
  - intros Hin Hfull. rewrite bookTicket_unfold. in_range Hin.
    apply N.ltb_ge in Hfull. by rewrite Hfull.
  - intros Hin Hlt Hrej. rewrite bookTicket_unfold. in_range Hin.
    apply N.ltb_lt in Hlt. rewrite Hlt.
    destruct Hrej as [-> | [tok' ->]].
    + exists CallReverted, (tixcoin w). by destruct w.
    + by exists ReturnedFalse, tok'.
  - intros err dirty Hrev.
    rewrite (execute_revert e (BookTicket _eventId) w err dirty Hrev). done.
Qed.

End Booking_failures.

Lemma bookTicket_failures_witness :
  bookTicket (Scenario.as_buyer 20) 5 (Scenario.with_event ReturnsFalse)
    = Revert NotFound (Scenario.with_event ReturnsFalse) /\
  bookTicket (Scenario.as_buyer 22) 1 (Scenario.sold_out ReturnsFalse)
    = Revert SoldOut (Scenario.sold_out ReturnsFalse) /\
  (exists how tok',
     bookTicket (mkEnv Scenario.stranger 20) 1 (Scenario.with_event ReturnsFalse)
       = Revert (PaymentFailed how) (set_tixcoin tok' (Scenario.with_event ReturnsFalse))) /\
  execute (mkEnv Scenario.stranger 20) (BookTicket 1) (Scenario.with_event ReturnsFalse)
    = Scenario.with_event ReturnsFalse.
Proof.
  split; [|split; [|split]].
  - apply (bookTicket_failures (Scenario.as_buyer 20) 5
             (Scenario.with_event ReturnsFalse)).
    vm_compute. intros [_ H]. apply H. reflexivity.
  - apply (bookTicket_failures (Scenario.as_buyer 22) 1
             (Scenario.sold_out ReturnsFalse)).
    + vm_compute. split; discriminate.
    + vm_compute. discriminate.
  - apply (bookTicket_failures (mkEnv Scenario.stranger 20) 1
             (Scenario.with_event ReturnsFalse)).
    + vm_compute. split; discriminate.
    + vm_compute. reflexivity.
    + right. eexists. vm_compute. reflexivity.
  - eapply (bookTicket_failures (mkEnv Scenario.stranger 20) 1
              (Scenario.with_event ReturnsFalse)).
    vm_compute. reflexivity.
Defined.

(** ** The standard token: what a transfer does to balances *)

Lemma move_credit from to amount (b : gmap N N) :
  from <> to ->
  default 0 (move from to amount b !! to) = default 0 (b !! to) + amount.
Proof.
  intros Hne. unfold move.
  rewrite lookup_insert_eq. cbn. by rewrite lookup_insert_ne.
Qed.

Lemma move_debit from to amount (b : gmap N N) :
  from <> to ->
  default 0 (move from to amount b !! from) = default 0 (b !! from) - amount.
Proof.
  intros Hne. unfold move.
  rewrite lookup_insert_ne by done. by rewrite lookup_insert_eq.
Qed.

Lemma token_transfer_Returned caller to amount t b t' :
  token_transfer caller to amount t = Returned b t' ->
  (b = true /\ amount <= balance t caller /\
   t' = mkToken (move caller to amount (balances t)) (allowances t) (on_failure t)) \/
  (b = false /\ balance t caller < amount /\ on_failure t = ReturnsFalse /\ t' = t).
Proof.
  unfold token_transfer, refuse.
  destruct (amount <=? balance t caller) eqn:Hle.
  - intros [= <- <-]. apply N.leb_le in Hle. auto.
  - apply N.leb_gt in Hle. destruct (on_failure t); [discriminate|].
    intros [= <- <-]. auto 6.
Qed.

Lemma token_transfer_honoured caller to amount t b t' :
  token_transfer caller to amount t = Returned b t' ->
  caller <> to ->
  on_failure t = RevertsOnFailure \/ amount <= balance t caller ->
  balance t' to = balance t to + amount /\
  balance t' caller + amount = balance t caller.
Proof.
  intros [(-> & Hle & ->) | (-> & Hlt & Hf & ->)]%token_transfer_Returned Hne Hon.
  - unfold balance in *. cbn. rewrite move_credit, move_debit by done. lia.
  - destruct Hon as [Hon | Hon]; [congruence | lia].
Qed.

(** ** Refunds *)

(** The refund tiers.  A successful cancelBooking pushes exactly the tiered
    refund to the caller: the full price when the current time is strictly
    before the owning event's refundDeadline, and price / 2 rounded down
    when it is at or after it, so that twice the refund never exceeds the
    price.  Whenever the token carries the push out, that is the amount by
    which the caller's balance grows and the ledger's custody shrinks. *)
Lemma cancelBooking_refund_tiers e _ticketId (w w' : World (T := Token)) res :
  cancelBooking e _ticketId w = Ok res w' ->
  (block_timestamp e < refundDeadline (event_of w _ticketId) ->
     pushed e w w' (price (event_of w _ticketId)) /\
     (honoured e w (price (event_of w _ticketId)) ->
        paid w w' (msg_sender e) (price (event_of w _ticketId)))) /\
  (refundDeadline (event_of w _ticketId) <= block_timestamp e ->
     pushed e w w' (price (event_of w _ticketId) / 2) /\
     (honoured e w (price (event_of w _ticketId) / 2) ->
        paid w w' (msg_sender e) (price (event_of w _ticketId) / 2)) /\
     2 * (price (event_of w _ticketId) / 2) <= price (event_of w _ticketId) /\
     price (event_of w _ticketId) < 2 * (price (event_of w _ticketId) / 2) + 2).
Proof.
  intros (_ & _ & _ & _ & tok' & -> & Hpush)%cancelBooking_Ok.
  assert (pushed e w (cancelled_world w _ticketId tok')
                 (refundAmount e (event_of w _ticketId))) as Hpushed.
  { unfold pushed. cbn. exact Hpush. }
  assert (honoured e w (refundAmount e (event_of w _ticketId)) ->
          paid w (cancelled_world w _ticketId tok') (msg_sender e)
               (refundAmount e (event_of w _ticketId))) as Hpaid.
  { intros [Hne Hon]. unfold paid. cbn.
    destruct (0 <? refundAmount e (event_of w _ticketId)) eqn:Hpos.
    - destruct Hpush as [b Ht].
      apply (token_transfer_honoured _ _ _ _ _ _ Ht); [congruence | exact Hon].
    - apply N.ltb_ge in Hpos. subst tok'. lia. }
  unfold refundAmount in Hpushed, Hpaid. split.
  - intros Hbefore. apply N.ltb_lt in Hbefore. rewrite Hbefore in Hpushed, Hpaid.
    by split.
  - intros Hafter. apply N.ltb_ge in Hafter. rewrite Hafter in Hpushed, Hpaid.
    split; [exact Hpushed|]. split; [exact Hpaid|].
    pose proof (N.Div0.mul_div_le (price (event_of w _ticketId)) 2).
    pose proof (N.mul_succ_div_gt (price (event_of w _ticketId)) 2).
    lia.
Qed.

(** Ticket 1, price 101: cancelled at time 30 it refunds 101, cancelled at
    the deadline, time 50, it refunds 50. *)
Lemma cancelBooking_refund_tiers_witness :
  paid (Scenario.booked RevertsOnFailure) (Scenario.cancelled RevertsOnFailure)
       Scenario.buyer 101 /\
  paid (Scenario.booked RevertsOnFailure)
       (execute (Scenario.as_buyer 50) (CancelBooking 1)
                (Scenario.booked RevertsOnFailure))
       Scenario.buyer 50.
Proof.
  split.
  - apply (cancelBooking_refund_tiers (Scenario.as_buyer 30) 1
             (Scenario.booked RevertsOnFailure)
             (Scenario.cancelled RevertsOnFailure) []).
    + vm_compute. reflexivity.
    + vm_compute. reflexivity.
    + split; [vm_compute; discriminate | left; reflexivity].
  - apply (cancelBooking_refund_tiers (Scenario.as_buyer 50) 1
             (Scenario.booked RevertsOnFailure)
             (execute (Scenario.as_buyer 50) (CancelBooking 1)
                      (Scenario.booked RevertsOnFailure)) []).
    + vm_compute. reflexivity.
    + vm_compute. discriminate.
    + split; [vm_compute; discriminate | left; reflexivity].
Defined.

(** ** Cancelling twice *)

Section Cancel_twice.
Context {T : Type} `{Tok : IERC20 T}.
Implicit Types (w : World (T := T)) (e : Env).

Lemma cancelled_has_no_holder w i :
  inv w -> isCancelled (tickets w !!! i) = true -> _owners w !! i = None.
Proof.
  intros Hinv Hc. destruct (_owners w !! i) as [a|] eqn:Ho; [|done].
  destruct (inv_owners w Hinv i) as (t & Ht & Hf); [eauto|].
  rewrite (lookup_total_correct _ _ _ Ht) in Hc. congruence.
Qed.

(** Once set, the cancelled flag of a ticket stays set. *)
Lemma cancelled_stays e op w i :
  inv w -> isCancelled (tickets w !!! i) = true ->
  isCancelled (tickets (execute e op w) !!! i) = true.
Proof.
  intros Hinv Hc. destruct (execute_cases e op w) as [[res Hcall] | [_ ->]]; [|done].
  revert Hcall. generalize (execute e op w). intros w'.
  destruct op as [n d p t r| |j|j]; cbn [call].
  - by intros (_ & _ & _ & ->)%createEvent_Ok.
  - by intros (_ & _ & _ & b & tok' & _ & ->)%withdrawFunds_Ok.
  - intros (_ & _ & _ & _ & _ & tok' & _ & ->)%bookTicket_Ok. cbn.
    destruct (decide (ticketIdCounter w + 1 = i)) as [<-|Hne].
    + exfalso. revert Hc. rewrite lookup_total_alt.
      destruct (tickets w !! (ticketIdCounter w + 1)) eqn:Ht; cbn; [|done].
      assert (is_Some (tickets w !! (ticketIdCounter w + 1))) as Hs by eauto.
      apply (inv_tickets_dom w Hinv) in Hs. lia.
    + by rewrite lookup_total_insert_ne.
  - intros (_ & _ & _ & _ & tok' & -> & _)%cancelBooking_Ok. cbn.
    destruct (decide (j = i)) as [<-|Hne].
    + by rewrite lookup_total_insert_eq.
    + by rewrite lookup_total_insert_ne.
Qed.

Lemma cancelled_stays_run calls w i :
  reachable w -> Forall (fun c => uint256_args (snd c)) calls ->
  isCancelled (tickets w !!! i) = true ->
  isCancelled (tickets (run calls w) !!! i) = true.
Proof.
  intros Hr Hall. revert w Hr.
  induction Hall as [|[e op] calls Hargs _ IH]; intros w Hr Hc; cbn; [done|].
  apply IH; [by apply reachable_execute|].
  apply cancelled_stays; [by apply reachable_inv | done].
Qed.

(** C4, as amended.  In every reachable world, cancelBooking on a ticket
    whose cancelled flag is set fails before anything is written and leaves
    the world, the token included, as it was, so no second refund is paid.
    The error is NotOwner for every caller other than the zero address: the
    holder check comes first, and the cancelled ticket's asset no longer has
    a holder.  Only for the zero address as caller does the call get as far
    as AlreadyCancelled.  The flag, once set, stays set through every later
    sequence of operations, so this holds for good. *)
Theorem cancelBooking_twice_rejected e _ticketId w :
  reachable w ->
  isCancelled (tickets w !!! _ticketId) = true ->
  (msg_sender e <> 0 -> cancelBooking e _ticketId w = Revert NotOwner w) /\
  (msg_sender e = 0 -> cancelBooking e _ticketId w = Revert AlreadyCancelled w) /\
  execute e (CancelBooking _ticketId) w = w /\
  tixcoin (execute e (CancelBooking _ticketId) w) = tixcoin w /\
  (forall calls, Forall (fun c => uint256_args (snd c)) calls ->
     isCancelled (tickets (run calls w) !!! _ticketId) = true).
Proof.
  intros Hr Hc. pose proof (reachable_inv w Hr) as Hinv.
  pose proof (cancelled_has_no_holder w _ticketId Hinv Hc) as Ho.
  assert (cancelBooking e _ticketId w
          = if 0 =? msg_sender e then Revert AlreadyCancelled w else Revert NotOwner w)
    as Hcall.
  { rewrite cancelBooking_unfold. unfold _ticketOwnerOf, ownerOf.
    rewrite Ho, Hc. reflexivity. }
  assert (execute e (CancelBooking _ticketId) w = w) as Hex.
  { unfold execute. cbn [call]. rewrite Hcall. by destruct (0 =? msg_sender e). }
  repeat split.
  - intros Hne. rewrite Hcall.
    destruct (0 =? msg_sender e) eqn:Hz; [|done]. apply N.eqb_eq in Hz. congruence.
  - intros Hz. rewrite Hcall, Hz. reflexivity.
  - exact Hex.
  - by rewrite Hex.
  - intros calls Hall. by apply cancelled_stays_run.
Qed.

End Cancel_twice.

(** C4, as stated, fails: the buyer's second cancelBooking on ticket 1 is
    refused with NotOwner, not with AlreadyCancelled. *)
Lemma cancelBooking_twice_not_AlreadyCancelled :
  reachable (Scenario.cancelled RevertsOnFailure) /\
  isCancelled (tickets (Scenario.cancelled RevertsOnFailure) !!! 1) = true /\
  cancelBooking (Scenario.as_buyer 31) 1 (Scenario.cancelled RevertsOnFailure)
    = Revert NotOwner (Scenario.cancelled RevertsOnFailure) /\
  (forall dirty,
     cancelBooking (Scenario.as_buyer 31) 1 (Scenario.cancelled RevertsOnFailure)
       <> Revert AlreadyCancelled dirty).
Proof.
  split; [apply scenario_reachable_cancelled|].
  split; [vm_compute; reflexivity|].
  assert (cancelBooking (Scenario.as_buyer 31) 1 (Scenario.cancelled RevertsOnFailure)
          = Revert NotOwner (Scenario.cancelled RevertsOnFailure)) as H
    by (vm_compute; reflexivity).
  split; [exact H|]. intros dirty. rewrite H. discriminate.
Qed.

Lemma cancelBooking_twice_rejected_witness :
  cancelBooking (Scenario.as_buyer 31) 1 (Scenario.cancelled RevertsOnFailure)
    = Revert NotOwner (Scenario.cancelled RevertsOnFailure) /\
  execute (Scenario.as_buyer 31) (CancelBooking 1) (Scenario.cancelled RevertsOnFailure)
    = Scenario.cancelled RevertsOnFailure.
Proof.
  destruct (cancelBooking_twice_rejected (Scenario.as_buyer 31) 1
              (Scenario.cancelled RevertsOnFailure)
              (scenario_reachable_cancelled RevertsOnFailure))
    as (Hne & _ & Hex & _).
  - vm_compute; reflexivity.
  - split; [apply Hne; discriminate | exact Hex].
Defined.

(** ** The unchecked refund push *)

Section Refund_push.
Context {T : Type} `{Tok : IERC20 T}.
Implicit Types (w : World (T := T)) (e : Env).

(** The flag returned by the refund push is discarded: when the token
    answers [false], the cancellation goes through all the same. *)
Lemma cancelBooking_discards_flag e i w tok' :
  _ticketOwnerOf i w = msg_sender e ->
  is_Some (_owners w !! i) ->
  isCancelled (tickets w !!! i) = false ->
  0 < refundAmount e (event_of w i) ->
  transfer (this w) (msg_sender e) (refundAmount e (event_of w i)) (tixcoin w)
  = Returned false tok' ->
  cancelBooking e i w = Ok [] (cancelled_world w i tok').
Proof.
  intros Hown%N.eqb_eq [a Ha] Hc Hpos%N.ltb_lt Hfalse.
  rewrite cancelBooking_unfold, Hown, Hc. cbn zeta. by rewrite Hpos, Hfalse, Ha.
Qed.

(** A refund push that makes the token revert takes the whole cancellation
    down with it, before anything is written. *)
Lemma cancelBooking_refund_reverted e i w :
  _ticketOwnerOf i w = msg_sender e ->
  isCancelled (tickets w !!! i) = false ->
  0 < refundAmount e (event_of w i) ->
  transfer (this w) (msg_sender e) (refundAmount e (event_of w i)) (tixcoin w)
  = Reverted ->
  cancelBooking e i w = Revert (PaymentFailed CallReverted) w /\
  execute e (CancelBooking i) w = w.
Proof.
  intros Hown%N.eqb_eq Hc Hpos%N.ltb_lt Hrev.
  assert (cancelBooking e i w = Revert (PaymentFailed CallReverted) w) as Hcall.
  { rewrite cancelBooking_unfold, Hown, Hc. cbn zeta. by rewrite Hpos, Hrev. }
  split; [exact Hcall|]. by apply (execute_revert e (CancelBooking i) w _ _ Hcall).
Qed.

End Refund_push.

(** C5 at its failing input.  The token answers [false] instead of
    reverting, and the administrator has swept custody.  The buyer's
    cancellation is owed 101; the token refuses the push with [false];
    cancelBooking succeeds all the same, sets the cancelled flag and burns
    the asset, and the buyer's balance has not moved. *)
Theorem cancelBooking_ignores_refused_refund :
  reachable (Scenario.swept ReturnsFalse) /\
  refundAmount (Scenario.as_buyer 30) (event_of (Scenario.swept ReturnsFalse) 1) = 101 /\
  transfer (this (Scenario.swept ReturnsFalse)) (msg_sender (Scenario.as_buyer 30)) 101
           (tixcoin (Scenario.swept ReturnsFalse))
    = Returned false (tixcoin (Scenario.swept ReturnsFalse)) /\
  isCancelled (tickets (Scenario.swept ReturnsFalse) !!! 1) = false /\
  ownerOf 1 (Scenario.swept ReturnsFalse) = Some Scenario.buyer /\
  exists w',
    cancelBooking (Scenario.as_buyer 30) 1 (Scenario.swept ReturnsFalse) = Ok [] w' /\
    isCancelled (tickets w' !!! 1) = true /\
    ownerOf 1 w' = None /\
    balance (tixcoin w') Scenario.buyer
      = balance (tixcoin (Scenario.swept ReturnsFalse)) Scenario.buyer.
Proof.
  split; [apply scenario_reachable_swept|].
  do 4 (split; [vm_compute; reflexivity|]).
  exists (execute (Scenario.as_buyer 30) (CancelBooking 1) (Scenario.swept ReturnsFalse)).
  do 3 (split; [vm_compute; reflexivity|]).
  vm_compute; reflexivity.
Qed.

(** C3 at its failing input, the one of C5.  Ticket 1 was bought at 101 and
    its event has its refund deadline at time 50; the token answers [false]
    to a push it cannot carry out, and custody has been swept.  The buyer's
    cancellation succeeds before the deadline, at time 30, where the refund
    is 101, and from the deadline on, at time 50, where the refund is 50; in
    both the buyer's balance is what it was: the refund transferred to the
    caller is 0, neither the price nor half of it. *)
Theorem cancelBooking_refund_not_transferred :
  reachable (Scenario.swept ReturnsFalse) /\
  price (event_of (Scenario.swept ReturnsFalse) 1) = 101 /\
  refundDeadline (event_of (Scenario.swept ReturnsFalse) 1) = 50 /\
  refundAmount (Scenario.as_buyer 30) (event_of (Scenario.swept ReturnsFalse) 1) = 101 /\
  refundAmount (Scenario.as_buyer 50) (event_of (Scenario.swept ReturnsFalse) 1) = 50 /\
  (exists w',
     cancelBooking (Scenario.as_buyer 30) 1 (Scenario.swept ReturnsFalse) = Ok [] w' /\
     balance (tixcoin w') Scenario.buyer
       = balance (tixcoin (Scenario.swept ReturnsFalse)) Scenario.buyer /\
     ~ paid (Scenario.swept ReturnsFalse) w' Scenario.buyer 101) /\
  (exists w',
     cancelBooking (Scenario.as_buyer 50) 1 (Scenario.swept ReturnsFalse) = Ok [] w' /\
     balance (tixcoin w') Scenario.buyer
       = balance (tixcoin (Scenario.swept ReturnsFalse)) Scenario.buyer /\
     ~ paid (Scenario.swept ReturnsFalse) w' Scenario.buyer 50).
Proof.
  split; [apply scenario_reachable_swept|].
  do 4 (split; [vm_compute; reflexivity|]).
  split.
  - exists (execute (Scenario.as_buyer 30) (CancelBooking 1) (Scenario.swept ReturnsFalse)).
    do 2 (split; [vm_compute; reflexivity|]).
    intros [Hp _]. vm_compute in Hp. discriminate.
  - exists (execute (Scenario.as_buyer 50) (CancelBooking 1) (Scenario.swept ReturnsFalse)).
    do 2 (split; [vm_compute; reflexivity|]).
    intros [Hp _]. vm_compute in Hp. discriminate.
Qed.

(** The same cancellation against a token that reverts: the whole call
    fails and the ticket stays active. *)
Example cancelBooking_reverting_token_refuses :
  cancelBooking (Scenario.as_buyer 30) 1 (Scenario.swept RevertsOnFailure)
    = Revert (PaymentFailed CallReverted) (Scenario.swept RevertsOnFailure) /\
  isCancelled (tickets (execute (Scenario.as_buyer 30) (CancelBooking 1)
                                (Scenario.swept RevertsOnFailure)) !!! 1) = false /\
  ownerOf 1 (execute (Scenario.as_buyer 30) (CancelBooking 1)
                     (Scenario.swept RevertsOnFailure)) = Some Scenario.buyer.
Proof.
  do 2 (split; [vm_compute; reflexivity|]).
  vm_compute; reflexivity.
Qed.

(** ** Withdrawing *)

(** C6.  In every reachable world over the standard token: withdrawFunds
    from anyone but the administrator fails with Unauthorized; from the
    administrator with zero custody it fails with NothingToWithdraw; from the
    administrator with positive custody it succeeds, changes nothing but the
    token, credits the administrator with the ledger's entire balance and
    leaves custody at zero. *)
Theorem withdrawFunds_spec e (w : World (T := Token)) :
  reachable w ->
  (msg_sender e <> owner w -> withdrawFunds e w = Revert Unauthorized w) /\
  (msg_sender e = owner w -> balance (tixcoin w) (this w) = 0 ->
     withdrawFunds e w = Revert NothingToWithdraw w) /\
  (msg_sender e = owner w -> 0 < balance (tixcoin w) (this w) ->
     exists tok',
       withdrawFunds e w = Ok [] (set_tixcoin tok' w) /\
       balance tok' (this w) = 0 /\
       balance tok' (owner w)
         = balance (tixcoin w) (owner w) + balance (tixcoin w) (this w)).
Proof.
  intros Hr. pose proof (inv_owner w (reachable_inv w Hr)) as Hne.
  repeat split.
  - intros Hs. rewrite withdrawFunds_unfold.
    apply N.eqb_neq in Hs. by rewrite Hs.
  - intros Hs Hz. rewrite withdrawFunds_unfold.
    apply N.eqb_eq in Hs. rewrite Hs. cbn [balanceOf Token_IERC20].
    by rewrite Hz.
  - intros Hs Hpos. rewrite withdrawFunds_unfold.
    apply N.eqb_eq in Hs. rewrite Hs. cbn [balanceOf transfer Token_IERC20].
    apply N.ltb_lt in Hpos. rewrite Hpos.
    destruct (token_transfer (this w) (owner w) (balance (tixcoin w) (this w))
                             (tixcoin w)) as [b tok'|] eqn:Ht.
    + exists tok'. split; [reflexivity|].
      destruct (token_transfer_honoured _ _ _ _ _ _ Ht) as [Hto Hfrom];
        [congruence | right; lia | split; lia].
    + unfold token_transfer, refuse in Ht. rewrite N.leb_refl in Ht. discriminate.
Qed.

Lemma withdrawFunds_spec_witness :
  withdrawFunds (Scenario.as_buyer 25) (Scenario.booked RevertsOnFailure)
    = Revert Unauthorized (Scenario.booked RevertsOnFailure) /\
  withdrawFunds (Scenario.as_admin 11) (Scenario.with_event RevertsOnFailure)
    = Revert NothingToWithdraw (Scenario.with_event RevertsOnFailure) /\
  exists tok',
    withdrawFunds (Scenario.as_admin 25) (Scenario.booked RevertsOnFailure)
      = Ok [] (set_tixcoin tok' (Scenario.booked RevertsOnFailure)) /\
    balance tok' Scenario.ledger = 0 /\
    balance tok' Scenario.admin = 0 + 101.
Proof.
  split; [|split].
  - apply (withdrawFunds_spec (Scenario.as_buyer 25) (Scenario.booked RevertsOnFailure)
             (scenario_reachable_booked RevertsOnFailure)).
    vm_compute. discriminate.
  - apply (withdrawFunds_spec (Scenario.as_admin 11)
             (Scenario.with_event RevertsOnFailure)
             (scenario_reachable_with_event RevertsOnFailure));
      vm_compute; reflexivity.
  - apply (withdrawFunds_spec (Scenario.as_admin 25) (Scenario.booked RevertsOnFailure)
             (scenario_reachable_booked RevertsOnFailure));
      vm_compute; reflexivity.
Defined.

(** ** What the last steps of a booking decide *)

Section Booking_goes_through.
Context {T : Type} `{Tok : IERC20 T}.
Implicit Types (w : World (T := T)) (e : Env).




End Booking_goes_through.

(** ** Creating events and reading them back *)

Section Events.
Context {T : Type} `{Tok : IERC20 T}.
Implicit Types (w : World (T := T)) (e : Env).

(** C7, as amended.  A successful createEvent raises eventIdCounter by one,
    stores under the new id the record built from its arguments with
    soldTickets = 0, leaves every other event as it was, and returns no
    value: the new id is read from eventIdCounter. *)
Theorem createEvent_allocates e _name _date _price _totalTickets _refundDeadline w res w' :
  createEvent e _name _date _price _totalTickets _refundDeadline w = Ok res w' ->
  eventIdCounter w' = eventIdCounter w + 1 /\
  events w' !! eventIdCounter w' =
    Some (mkEvent _name _date _price _totalTickets 0 _refundDeadline) /\
  soldTickets (getEventDetails (eventIdCounter w') w') = 0 /\
  (forall id, id <> eventIdCounter w + 1 -> events w' !! id = events w !! id) /\
  res = [].
Proof.
  intros (_ & _ & -> & ->)%createEvent_Ok. unfold getEventDetails. cbn.
  repeat split.
  - apply lookup_insert_eq.
  - by rewrite lookup_total_insert_eq.
  - intros id Hne. by rewrite lookup_insert_ne.
Qed.

(** C8.  getEventDetails never fails.  In a reachable world it returns the
    all-zero record for every id outside [1, eventIdCounter], and for every
    id inside that range the record stored under the id, unchanged. *)
Theorem getEventDetails_spec _eventId w :
  reachable w ->
  (~ (1 <= _eventId <= eventIdCounter w) ->
     getEventDetails _eventId w = mkEvent "" 0 0 0 0 0) /\
  (1 <= _eventId <= eventIdCounter w ->
     events w !! _eventId = Some (getEventDetails _eventId w)).
Proof.
  intros Hr. pose proof (inv_events_dom w (reachable_inv w Hr) _eventId) as Hd.
  unfold getEventDetails. rewrite lookup_total_alt. split.
  - intros Hout. destruct (events w !! _eventId) eqn:Hev; [|reflexivity].
    exfalso. apply Hout, Hd. eauto.
  - intros Hin. apply Hd in Hin as [ev ->]. reflexivity.
Qed.

(** C9.  A successful cancelBooking changes the ticket store only at the
    cancelled id, and there only the flag, which becomes true; it removes
    that id's holder from the registry and may change the token.  Every event
    record, every other ticket, the ticket's eventId and owner fields, the
    purchaser index, both counters and the two immutables stay as they
    were. *)
Theorem cancelBooking_frame e _ticketId w res w' :
  cancelBooking e _ticketId w = Ok res w' ->
  events w' = events w /\
  (forall id, getEventDetails id w' = getEventDetails id w) /\
  eventIdCounter w' = eventIdCounter w /\
  ticketIdCounter w' = ticketIdCounter w /\
  ownerBookings w' = ownerBookings w /\
  (forall u, getUserTickets u w' = getUserTickets u w) /\
  (forall id, id <> _ticketId -> tickets w' !! id = tickets w !! id) /\
  isCancelled (tickets w' !!! _ticketId) = true /\
  eventId (tickets w' !!! _ticketId) = eventId (tickets w !!! _ticketId) /\
  ticket_owner (tickets w' !!! _ticketId) = ticket_owner (tickets w !!! _ticketId) /\
  _owners w' = delete _ticketId (_owners w) /\
  owner w' = owner w /\
  this w' = this w.
Proof.
  intros (_ & _ & _ & _ & tok' & -> & _)%cancelBooking_Ok. cbn.
  repeat split.
  - intros id Hne. by rewrite lookup_insert_ne.
  - by rewrite lookup_total_insert_eq.
  - by rewrite lookup_total_insert_eq.
  - by rewrite lookup_total_insert_eq.
Qed.


End Events.

(** C7, as stated, fails: createEvent hands nothing back, so the caller does
    not receive the new id 1. *)
Lemma createEvent_returns_nothing :
  exists w',
    createEvent (Scenario.as_admin 10) "gala" 60 101 2 50
                (Scenario.deployed RevertsOnFailure) = Ok [] w' /\
    eventIdCounter w' = 1 /\
    ([] : returndata) <> [eventIdCounter w'].
Proof.
  exists (Scenario.with_event RevertsOnFailure).
  split; [vm_compute; reflexivity|].
  split; [vm_compute; reflexivity|].
  discriminate.
Qed.

Lemma createEvent_allocates_witness :
  eventIdCounter (Scenario.with_event RevertsOnFailure)
    = eventIdCounter (Scenario.deployed RevertsOnFailure) + 1 /\
  events (Scenario.with_event RevertsOnFailure)
    !! eventIdCounter (Scenario.with_event RevertsOnFailure)
    = Some (mkEvent "gala" 60 101 2 0 50).
Proof.
  destruct (createEvent_allocates (Scenario.as_admin 10) "gala" 60 101 2 50
              (Scenario.deployed RevertsOnFailure) []
              (Scenario.with_event RevertsOnFailure))
    as (H1 & H2 & _).
  - vm_compute. reflexivity.
  - split; [exact H1 | exact H2].
Defined.

Lemma getEventDetails_spec_witness :
  getEventDetails 7 (Scenario.booked RevertsOnFailure) = mkEvent "" 0 0 0 0 0 /\
  events (Scenario.booked RevertsOnFailure) !! 1
    = Some (getEventDetails 1 (Scenario.booked RevertsOnFailure)).
Proof.
  destruct (getEventDetails_spec 7 (Scenario.booked RevertsOnFailure)
              (scenario_reachable_booked RevertsOnFailure)) as [H7 _].
  destruct (getEventDetails_spec 1 (Scenario.booked RevertsOnFailure)
              (scenario_reachable_booked RevertsOnFailure)) as [_ H1].
  split.
  - apply H7. vm_compute. intros [_ H]. apply H. reflexivity.
  - apply H1. vm_compute. split; discriminate.
Defined.

Lemma cancelBooking_frame_witness :
  events (Scenario.cancelled RevertsOnFailure) = events (Scenario.booked RevertsOnFailure) /\
  isCancelled (tickets (Scenario.cancelled RevertsOnFailure) !!! 1) = true.
Proof.
  destruct (cancelBooking_frame (Scenario.as_buyer 30) 1
              (Scenario.booked RevertsOnFailure) []
              (Scenario.cancelled RevertsOnFailure))
    as (H1 & _ & _ & _ & _ & _ & _ & H2 & _).
  - vm_compute. reflexivity.
  - split; [exact H1 | exact H2].
Defined.



(** ** The specification's scenario *)

(** Two seats sold and still counted as sold after both cancellations; the
    buyer paid 200 and got 100 and 50 back; both ids stay in the purchaser
    index with their flags set. *)
Example scenario_round_trip :
  soldTickets (getEventDetails 1 (Scenario.round_trip RevertsOnFailure)) = 2 /\
  ticketIdCounter (Scenario.round_trip RevertsOnFailure) = 2 /\
  balance (tixcoin (Scenario.round_trip RevertsOnFailure)) Scenario.buyer = 950 /\
  balance (tixcoin (Scenario.round_trip RevertsOnFailure)) Scenario.ledger = 50 /\
  getUserTickets Scenario.buyer (Scenario.round_trip RevertsOnFailure) = [1; 2] /\
  isCancelled (tickets (Scenario.round_trip RevertsOnFailure) !!! 1) = true /\
  isCancelled (tickets (Scenario.round_trip RevertsOnFailure) !!! 2) = true.
Proof.
  do 6 (split; [vm_compute; reflexivity|]).
  vm_compute; reflexivity.
Qed.

(** * More of the ledger *)

(** ** Counting entries of a filtered map *)

Section Filter_size.
Context {A : Type} (P : N * A -> Prop) `{!forall x, Decision (P x)}.
Implicit Types m : gmap N A.

Lemma size_filter_none m :
  (forall i x, m !! i = Some x -> ~ P (i, x)) -> size (filter P m) = 0%nat.
Proof.
  intros Hnone. apply map_size_empty_iff, map_eq. intros i.
  rewrite lookup_empty. apply map_lookup_filter_None_2.
  destruct (m !! i) as [x|] eqn:Hi; [right|by left].
  intros y [= <-]. eauto.
Qed.

Lemma size_filter_insert_fresh m i x :
  m !! i = None ->
  size (filter P (<[i := x]> m))
  = if decide (P (i, x)) then S (size (filter P m)) else size (filter P m).
Proof.
  intros Hi. rewrite map_filter_insert. case_decide.
  - apply map_size_insert_None, map_lookup_filter_None_2. by left.
  - by rewrite delete_id.
Qed.

Lemma size_filter_insert_same m i x x' :
  m !! i = Some x -> (P (i, x) <-> P (i, x')) ->
  size (filter P (<[i := x']> m)) = size (filter P m).
Proof.
  intros Hi Hiff. rewrite map_filter_insert. case_decide as HP.
  - apply map_size_insert_Some. exists x.
    apply map_lookup_filter_Some_2; [done|]. by apply Hiff.
  - rewrite map_filter_delete_not; [done|].
    intros y Hy HPy. rewrite Hi in Hy. injection Hy as <-. by apply HP, Hiff.
Qed.

End Filter_size.

(** ** The bookkeeping invariant *)

Section Bookkeeping_invariant.
Context {T : Type} `{Tok : IERC20 T}.
Implicit Types (w : World (T := T)) (e : Env).

Lemma ledger_inv_constructor deployer self (tok : T) :
  ledger_inv (constructor deployer self tok).
Proof.
  split; cbn.
  - intros id. lia.
  - intros id t. rewrite lookup_empty. discriminate.
  - intros id t. rewrite lookup_empty. discriminate.
  - intros u id. rewrite lookup_total_empty. cbn. by intros ?%elem_of_nil.
  - intros id t. rewrite lookup_empty. discriminate.
  - intros u. rewrite lookup_total_empty. constructor.
  - intros id. unfold tickets_of. cbn.
    rewrite lookup_total_empty, map_filter_empty, map_size_empty. reflexivity.
Qed.

Lemma ledger_inv_createEvent w n d p t r :
  inv w -> ledger_inv w -> ledger_inv (created w n d p t r).
Proof.
  intros Hinv [Hd He Hl Hs Hc Hn Hk]. split; cbn; auto.
  - intros id tk Htk. apply He in Htk. lia.
  - intros id. unfold tickets_of. cbn.
    destruct (decide (eventIdCounter w + 1 = id)) as [<-|Hne].
    + rewrite lookup_total_insert_eq. cbn.
      rewrite size_filter_none; [reflexivity|].
      intros i tk Htk. cbn. apply He in Htk. lia.
    + rewrite lookup_total_insert_ne by done. apply Hk.
Qed.

Lemma ledger_inv_bookTicket w buyer i (tok' : T) :
  inv w -> ledger_inv w -> 1 <= i <= eventIdCounter w ->
  ledger_inv (booked_world w buyer i tok').
Proof.
  intros Hinv [Hd He Hl Hs Hc Hn Hk] Hi.
  assert (tickets w !! (ticketIdCounter w + 1) = None) as Hfresh.
  { destruct (tickets w !! (ticketIdCounter w + 1)) eqn:Ht; [|done].
    assert (is_Some (tickets w !! (ticketIdCounter w + 1))) as Hsome by eauto.
    apply (inv_tickets_dom w Hinv) in Hsome. lia. }
  assert (forall u, ticketIdCounter w + 1 ∉ ownerBookings w !!! u) as Hnotin.
  { intros u Hin. apply Hs in Hin as (t & Ht & _). congruence. }
  split; cbn.
  - intros id Hid. rewrite lookup_insert_is_Some.
    destruct (decide (ticketIdCounter w + 1 = id)); [by left|].
    right. split; [done|]. apply Hd. lia.
  - intros id t. rewrite lookup_insert. case_decide.
    + intros [= <-]. cbn. lia.
    + apply He.
  - intros id t. rewrite lookup_insert. case_decide as Heq.
    + intros _ _. subst id. rewrite lookup_insert_eq. eauto.
    + intros Ht Hf. rewrite lookup_insert_ne by done. eauto.
  - intros u id. destruct (decide (buyer = u)) as [<-|Hne].
    + rewrite lookup_total_insert_eq, elem_of_app, list_elem_of_singleton.
      intros [Hin | ->].
      * destruct (Hs _ _ Hin) as (t & Ht & Hu). exists t.
        rewrite lookup_insert_ne; [done|]. intros <-. congruence.
      * rewrite lookup_insert_eq. eauto.
    + rewrite lookup_total_insert_ne by done. intros Hin.
      destruct (Hs _ _ Hin) as (t & Ht & Hu). exists t.
      rewrite lookup_insert_ne; [done|]. intros <-. congruence.
  - intros id t. rewrite lookup_insert. case_decide as Heq.
    + intros [= <-]. cbn. rewrite lookup_total_insert_eq, elem_of_app,
        list_elem_of_singleton. by right.
    + intros Ht. apply Hc in Ht.
      destruct (decide (buyer = ticket_owner t)) as [->|Hne].
      * rewrite lookup_total_insert_eq, elem_of_app. by left.
      * by rewrite lookup_total_insert_ne.
  - intros u. destruct (decide (buyer = u)) as [<-|Hne].
    + rewrite lookup_total_insert_eq. apply NoDup_app. split; [apply Hn|].
      split; [|apply NoDup_singleton].
      intros x Hx ->%list_elem_of_singleton. by apply (Hnotin buyer).
    + rewrite lookup_total_insert_ne by done. apply Hn.
  - intros id. unfold tickets_of. cbn.
    rewrite size_filter_insert_fresh by done. cbn.
    destruct (decide (i = id)) as [<-|Hne].
    + rewrite lookup_total_insert_eq. cbn.
      fold (tickets_of i w). rewrite (Hk i). lia.
    + rewrite lookup_total_insert_ne by done. apply Hk.
Qed.

Lemma ledger_inv_cancelBooking w i (tok' : T) :
  inv w -> ledger_inv w -> is_Some (_owners w !! i) ->
  ledger_inv (cancelled_world w i tok').
Proof.
  intros Hinv [Hd He Hl Hs Hc Hn Hk] Hi.
  destruct (inv_owners w Hinv i Hi) as (t & Ht & Hlive).
  unfold cancelled_world. rewrite (lookup_total_correct _ _ _ Ht). split; cbn; auto.
  - intros id Hid. rewrite lookup_insert_is_Some.
    destruct (decide (i = id)); [by left | right; auto].
  - intros id t'. rewrite lookup_insert. case_decide.
    + intros [= <-]. cbn. eauto.
    + apply He.
  - intros id t'. rewrite lookup_insert. case_decide as Heq.
    + intros [= <-]. discriminate.
    + intros Ht' Hf. rewrite lookup_delete_ne by done. eauto.
  - intros u id Hin. destruct (Hs _ _ Hin) as (t' & Ht' & Hu).
    destruct (decide (i = id)) as [<-|Hne].
    + rewrite lookup_insert_eq. exists (cancelled_ticket t). split; [done|].
      cbn. congruence.
    + rewrite lookup_insert_ne by done. eauto.
  - intros id t'. rewrite lookup_insert. case_decide as Heq.
    + intros [= <-]. cbn. subst id. by apply Hc.
    + apply Hc.
  - intros id. unfold tickets_of. cbn.
    rewrite (size_filter_insert_same _ _ _ t); [apply Hk | done | done].
Qed.

Lemma ledger_inv_set_tixcoin w (tok' : T) : ledger_inv w -> ledger_inv (set_tixcoin tok' w).
Proof. intros [Hd He Hl Hs Hc Hn Hk]. split; cbn; auto. Qed.

Lemma ledger_inv_call e op w res w' :
  inv w -> ledger_inv w -> call e op w = Ok res w' -> ledger_inv w'.
Proof.
  intros Hinv Hli. destruct op as [n d p t r| |i|i]; cbn [call].
  - intros (_ & _ & _ & ->)%createEvent_Ok. by apply ledger_inv_createEvent.
  - intros (_ & _ & _ & b & tok' & _ & ->)%withdrawFunds_Ok.
    by apply ledger_inv_set_tixcoin.
  - intros (Hi & _ & _ & _ & _ & tok' & _ & ->)%bookTicket_Ok.
    by apply ledger_inv_bookTicket.
  - intros (_ & _ & Ho & _ & tok' & -> & _)%cancelBooking_Ok.
    by apply ledger_inv_cancelBooking.
Qed.

Lemma reachable_ledger_inv w : reachable w -> ledger_inv w.
Proof.
  induction 1 as [deployer self tok Hne | e op w res w' Hr IH Hargs Hcall
                 | w tok' _ IH | w id to _ IH Hid | w r _ IH].
  - apply ledger_inv_constructor.
  - eapply ledger_inv_call; eauto. by apply reachable_inv.
  - by apply ledger_inv_set_tixcoin.
  - destruct IH as [Hd He Hl Hs Hc Hn Hk]. split; cbn; auto.
    intros id' t Ht Hf. rewrite lookup_insert_is_Some.
    destruct (decide (id = id')); [by left | right; eauto].
  - destruct IH as [Hd He Hl Hs Hc Hn Hk]. split; cbn; auto.
Qed.

End Bookkeeping_invariant.

(** ** What no operation touches *)

Section Permanence.
Context {T : Type} `{Tok : IERC20 T}.
Implicit Types (w : World (T := T)) (e : Env).

(** Splits a successful call into the four entry points and rewrites the
    new world into the one the entry point builds. *)
Ltac by_entry_point op Hcall :=
  destruct op as [?n ?d ?p ?t ?r| |?i|?i]; cbn [call] in Hcall;
  [ apply createEvent_Ok in Hcall as (_ & ?Hctr & _ & ->)
  | apply withdrawFunds_Ok in Hcall as (_ & _ & _ & ?b & ?tok' & _ & ->)
  | apply bookTicket_Ok in Hcall as (?Hin & ?Hseat & ?Hctr & ?Hfree & _ & ?tok' & ?Hpull & ->)
  | apply cancelBooking_Ok in Hcall as (?Hown & ?Hflag & ?Hholder & _ & ?tok' & -> & ?Hpush) ].

Lemma same_terms_refl (ev : Event) : same_terms ev ev.
Proof. by repeat split. Qed.

Lemma same_terms_trans (ev1 ev2 ev3 : Event) :
  same_terms ev1 ev2 -> same_terms ev2 ev3 -> same_terms ev1 ev3.
Proof. unfold same_terms. intros (?&?&?&?&?) (?&?&?&?&?). repeat split; congruence. Qed.

Lemma same_ticket_refl (t : Ticket) : same_ticket t t.
Proof. by repeat split. Qed.

Lemma same_ticket_trans (t1 t2 t3 : Ticket) :
  same_ticket t1 t2 -> same_ticket t2 t3 -> same_ticket t1 t3.
Proof.
  unfold same_ticket. intros (?&?&?) (?&?&?). repeat split; try congruence. auto.
Qed.

Lemma call_event_terms e op w res w' id ev :
  inv w -> call e op w = Ok res w' -> events w !! id = Some ev ->
  exists ev', events w' !! id = Some ev' /\ same_terms ev ev'.
Proof.
  intros Hinv Hcall Hev. by_entry_point op Hcall; cbn.
  - exists ev. split; [|apply same_terms_refl].
    rewrite lookup_insert_ne; [done|]. intros <-.
    assert (is_Some (events w !! (eventIdCounter w + 1))) as Hs by eauto.
    apply (inv_events_dom w Hinv) in Hs. lia.
  - exists ev. split; [done | apply same_terms_refl].
  - destruct (decide (i = id)) as [<-|Hne].
    + rewrite lookup_insert_eq, (lookup_total_correct _ _ _ Hev).
      eexists. split; [done|]. by repeat split.
    + rewrite lookup_insert_ne by done. exists ev. split; [done | apply same_terms_refl].
  - exists ev. split; [done | apply same_terms_refl].
Qed.

Lemma call_ticket_kept e op w res w' id t :
  inv w -> call e op w = Ok res w' -> tickets w !! id = Some t ->
  exists t', tickets w' !! id = Some t' /\ same_ticket t t'.
Proof.
  intros Hinv Hcall Ht. by_entry_point op Hcall; cbn.
  - exists t. split; [done | apply same_ticket_refl].
  - exists t. split; [done | apply same_ticket_refl].
  - exists t. split; [|apply same_ticket_refl].
    rewrite lookup_insert_ne; [done|]. intros <-.
    assert (is_Some (tickets w !! (ticketIdCounter w + 1))) as Hs by eauto.
    apply (inv_tickets_dom w Hinv) in Hs. lia.
  - destruct (decide (i = id)) as [<-|Hne].
    + rewrite lookup_insert_eq, (lookup_total_correct _ _ _ Ht).
      eexists. split; [done|]. by repeat split.
    + rewrite lookup_insert_ne by done. exists t. split; [done | apply same_ticket_refl].
Qed.

Lemma call_index_grows e op w res w' u :
  call e op w = Ok res w' -> getUserTickets u w `prefix_of` getUserTickets u w'.
Proof.
  intros Hcall. unfold getUserTickets. by_entry_point op Hcall; cbn; try done.
  destruct (decide (msg_sender e = u)) as [<-|Hne].
  - rewrite lookup_total_insert_eq. by apply prefix_app_r.
  - by rewrite lookup_total_insert_ne.
Qed.

Lemma call_counters e op w res w' :
  call e op w = Ok res w' ->
  owner w' = owner w /\ this w' = this w /\
  eventIdCounter w <= eventIdCounter w' <= eventIdCounter w + 1 /\
  ticketIdCounter w <= ticketIdCounter w' <= ticketIdCounter w + 1.
Proof.
  intros Hcall. by_entry_point op Hcall; cbn; repeat split; lia.
Qed.

(** The same facts along a sequence of transactions. *)

Lemma run_cons e op calls w : run ((e, op) :: calls) w = run calls (execute e op w).
Proof. reflexivity. Qed.

Lemma run_event_terms calls w id ev :
  reachable w -> Forall (fun c => uint256_args (snd c)) calls ->
  events w !! id = Some ev ->
  exists ev', events (run calls w) !! id = Some ev' /\ same_terms ev ev'.
Proof.
  intros Hr Hall. revert w ev Hr.
  induction Hall as [|[e op] calls Hargs _ IH]; intros w ev Hr Hev.
  - exists ev. split; [done | apply same_terms_refl].
  - rewrite run_cons.
    destruct (execute_cases e op w) as [[res Hcall] | [_ Heq]].
    + destruct (call_event_terms e op w res _ id ev (reachable_inv w Hr) Hcall Hev)
        as (ev1 & Hev1 & H1).
      destruct (IH _ ev1 (reachable_execute e op w Hr Hargs) Hev1) as (ev2 & Hev2 & H2).
      exists ev2. split; [done|]. by eapply same_terms_trans.
    + rewrite Heq. by apply IH.
Qed.

Lemma run_ticket_kept calls w id t :
  reachable w -> Forall (fun c => uint256_args (snd c)) calls ->
  tickets w !! id = Some t ->
  exists t', tickets (run calls w) !! id = Some t' /\ same_ticket t t'.
Proof.
  intros Hr Hall. revert w t Hr.
  induction Hall as [|[e op] calls Hargs _ IH]; intros w t Hr Ht.
  - exists t. split; [done | apply same_ticket_refl].
  - rewrite run_cons.
    destruct (execute_cases e op w) as [[res Hcall] | [_ Heq]].
    + destruct (call_ticket_kept e op w res _ id t (reachable_inv w Hr) Hcall Ht)
        as (t1 & Ht1 & H1).
      destruct (IH _ t1 (reachable_execute e op w Hr Hargs) Ht1) as (t2 & Ht2 & H2).
      exists t2. split; [done|]. by eapply same_ticket_trans.
    + rewrite Heq. by apply IH.
Qed.

Lemma run_index_grows calls w u :
  getUserTickets u w `prefix_of` getUserTickets u (run calls w).
Proof.
  revert w. induction calls as [|[e op] calls IH]; intros w; [done|].
  rewrite run_cons. etrans; [|apply IH].
  destruct (execute_cases e op w) as [[res Hcall] | [_ ->]]; [|done].
  by eapply call_index_grows.
Qed.

Lemma run_counters calls w :
  owner (run calls w) = owner w /\ this (run calls w) = this w /\
  eventIdCounter w <= eventIdCounter (run calls w) /\
  ticketIdCounter w <= ticketIdCounter (run calls w).
Proof.
  revert w. induction calls as [|[e op] calls IH]; intros w; [done|].
  rewrite run_cons. destruct (IH (execute e op w)) as (Ho & Ht & He & Hk).
  destruct (execute_cases e op w) as [[res Hcall] | [_ Heq]].
  - destruct (call_counters e op w res _ Hcall) as (Ho' & Ht' & He' & Hk').
    repeat split; [congruence | congruence | lia | lia].
  - rewrite Heq in *. done.
Qed.

(** X2.  The terms of an event are fixed at its creation: through any
    sequence of operations an existing event keeps its name, date, price,
    capacity and refund deadline; only its sold count can differ. *)
Theorem event_terms_are_fixed calls w id ev :
  reachable w -> Forall (fun c => uint256_args (snd c)) calls ->
  events w !! id = Some ev ->
  exists ev',
    events (run calls w) !! id = Some ev' /\
    name ev' = name ev /\ date ev' = date ev /\ price ev' = price ev /\
    totalTickets ev' = totalTickets ev /\ refundDeadline ev' = refundDeadline ev /\
    soldTickets ev <= soldTickets ev'.
Proof.
  intros Hr Hall Hev.
  destruct (run_event_terms calls w id ev Hr Hall Hev) as (ev' & Hev' & Hn & Hd & Hp & Ht & Hdl).
  exists ev'. repeat split; try done.
  pose proof (run_sold_mono calls w id Hr Hall) as Hmono.
  unfold getEventDetails in Hmono.
  by rewrite (lookup_total_correct _ _ _ Hev), (lookup_total_correct _ _ _ Hev') in Hmono.
Qed.

(** X7.  A ticket record is permanent: through any sequence of operations an
    issued ticket keeps its event id and its purchaser, also after it has
    been cancelled, and a cancelled flag is never cleared. *)
Theorem ticket_record_is_permanent calls w id t :
  reachable w -> Forall (fun c => uint256_args (snd c)) calls ->
  tickets w !! id = Some t ->
  exists t',
    tickets (run calls w) !! id = Some t' /\
    eventId t' = eventId t /\ ticket_owner t' = ticket_owner t /\
    (isCancelled t = true -> isCancelled t' = true).
Proof. apply run_ticket_kept. Qed.

(** X5.  The purchaser index is append-only: whatever is executed, the list
    getUserTickets returned before is a prefix of the list it returns
    after; ids are never removed or reordered, not even by a cancellation. *)
Theorem purchaser_index_append_only calls w u :
  getUserTickets u w `prefix_of` getUserTickets u (run calls w).
Proof. apply run_index_grows. Qed.


(** X3.  Sold out is for good: once an existing event has sold its
    capacity, bookTicket on it fails with SoldOut after every later sequence
    of operations, cancellations included (a cancelled seat is not put back
    on sale). *)
Theorem sold_out_is_permanent calls e w id :
  reachable w -> Forall (fun c => uint256_args (snd c)) calls ->
  1 <= id <= eventIdCounter w ->
  totalTickets (events w !!! id) <= soldTickets (events w !!! id) ->
  bookTicket e id (run calls w) = Revert SoldOut (run calls w).
Proof.
  intros Hr Hall Hin Hfull.
  destruct (proj2 (inv_events_dom w (reachable_inv w Hr) id) Hin) as [ev Hev].
  destruct (run_event_terms calls w id ev Hr Hall Hev) as (ev' & Hev' & _ & _ & _ & Ht & _).
  pose proof (run_sold_mono calls w id Hr Hall) as Hmono.
  destruct (run_counters calls w) as (_ & _ & Hctr & _).
  unfold getEventDetails in Hmono.
  rewrite (lookup_total_correct _ _ _ Hev) in Hfull, Hmono.
  rewrite (lookup_total_correct _ _ _ Hev') in Hmono.
  rewrite bookTicket_unfold.
  assert (1 <= id <= eventIdCounter (run calls w)) as Hin' by lia.
  in_range Hin'. rewrite (lookup_total_correct _ _ _ Hev').
  replace (soldTickets ev' <? totalTickets ev') with false; [done|].
  symmetry. apply N.ltb_ge. lia.
Qed.

End Permanence.

(** ** Who may create events, and what a booking writes *)

Section Entry_points.
Context {T : Type} `{Tok : IERC20 T}.
Implicit Types (w : World (T := T)) (e : Env).

(** X1.  createEvent is the administrator's alone and validates nothing: it
    succeeds exactly when the caller is the owner and the event counter can
    still be incremented, whatever the name, date, price, capacity and
    deadline are (zero included); from any other caller it fails with
    Unauthorized before anything is written. *)
Theorem createEvent_access e _name _date _price _totalTickets _refundDeadline w :
  ((exists res w',
      createEvent e _name _date _price _totalTickets _refundDeadline w = Ok res w')
   <-> msg_sender e = owner w /\ eventIdCounter w < uint256_max) /\
  (msg_sender e <> owner w ->
     createEvent e _name _date _price _totalTickets _refundDeadline w
       = Revert Unauthorized w /\
     execute e (CreateEvent _name _date _price _totalTickets _refundDeadline) w = w) /\
  (msg_sender e = owner w -> eventIdCounter w = uint256_max ->
     createEvent e _name _date _price _totalTickets _refundDeadline w
       = Revert Overflow w).
Proof.
  split; [|split].
  - split.
    + intros (res & w' & Hcall). apply createEvent_Ok in Hcall. tauto.
    + intros [Hs%N.eqb_eq Hc%N.ltb_lt]. rewrite createEvent_unfold, Hs, Hc. eauto.
  - intros Hne%N.eqb_neq.
    assert (createEvent e _name _date _price _totalTickets _refundDeadline w
            = Revert Unauthorized w) as Hcall
      by (by rewrite createEvent_unfold, Hne).
    split; [done|]. unfold execute. cbn [call]. by rewrite Hcall.
  - intros Hs%N.eqb_eq Hmax. rewrite createEvent_unfold, Hs, Hmax.
    by rewrite N.ltb_irrefl.
Qed.


(** X18.  A refund of zero involves no token call.  The refund is zero
    exactly when the price is zero, or the price is one and the deadline has
    been reached; the holder's cancellation then succeeds with the token
    untouched, whatever the custody balance and whatever the token would
    have answered. *)
Theorem zero_refund_needs_no_token e _ticketId w :
  (refundAmount e (event_of w _ticketId) = 0 <->
     price (event_of w _ticketId) = 0 \/
     (refundDeadline (event_of w _ticketId) <= block_timestamp e /\
      price (event_of w _ticketId) = 1)) /\
  (refundAmount e (event_of w _ticketId) = 0 ->
   ownerOf _ticketId w = Some (msg_sender e) ->
   isCancelled (tickets w !!! _ticketId) = false ->
     cancelBooking e _ticketId w = Ok [] (cancelled_world w _ticketId (tixcoin w))).
Proof.
  split.
  - unfold refundAmount.
    destruct (block_timestamp e <? refundDeadline (event_of w _ticketId)) eqn:Hb.
    + apply N.ltb_lt in Hb. split; [auto|]. intros [? | [? _]]; [done | lia].
    + apply N.ltb_ge in Hb.
      pose proof (N.Div0.mul_div_le (price (event_of w _ticketId)) 2).
      pose proof (N.mul_succ_div_gt (price (event_of w _ticketId)) 2).
      split.
      * intros Hz. rewrite Hz in *. lia.
      * intros [Hp | [_ Hp]]; rewrite Hp; reflexivity.
  - intros Hz Hown Hflag. rewrite cancelBooking_unfold.
    unfold _ticketOwnerOf. rewrite Hown, N.eqb_refl, Hflag. cbn zeta.
    rewrite Hz. cbn. unfold ownerOf in Hown. by rewrite Hown.
Qed.

(** X11.  Cancellation belongs to the current holder of the asset, not to
    the purchaser on record: a cancelBooking that succeeds was sent by the
    holder; anyone else is refused with NotOwner before anything is written,
    the recorded purchaser included once the asset has changed hands; and
    for an id without holder every caller other than the zero address is
    refused the same way. *)
Theorem cancel_is_for_the_holder e _ticketId w :
  (forall res w', cancelBooking e _ticketId w = Ok res w' ->
     ownerOf _ticketId w = Some (msg_sender e)) /\
  (forall holder, ownerOf _ticketId w = Some holder -> msg_sender e <> holder ->
     cancelBooking e _ticketId w = Revert NotOwner w) /\
  (ownerOf _ticketId w = None -> msg_sender e <> 0 ->
     cancelBooking e _ticketId w = Revert NotOwner w).
Proof.
  split; [|split].
  - intros res w' (Hown & _ & [a Ha] & _)%cancelBooking_Ok.
    unfold _ticketOwnerOf, ownerOf in *. rewrite Ha in Hown. congruence.
  - intros holder Hh Hne. rewrite cancelBooking_unfold.
    unfold _ticketOwnerOf. rewrite Hh.
    replace (holder =? msg_sender e) with false; [done|].
    symmetry. apply N.eqb_neq. congruence.
  - intros Hh Hne. rewrite cancelBooking_unfold.
    unfold _ticketOwnerOf. rewrite Hh.
    replace (0 =? msg_sender e) with false; [done|].
    symmetry. apply N.eqb_neq. congruence.
Qed.

End Entry_points.

(** ** Tickets, holders, the purchaser index and the sold counts *)

Section Bookkeeping_facts.
Context {T : Type} `{Tok : IERC20 T}.
Implicit Types (w : World (T := T)) (e : Env).

(** X8.  Ticket ids are dense: in a reachable world a ticket record exists
    exactly for the ids 1 to ticketIdCounter, and each record names an event
    that exists, so the event a cancellation prices the refund from is a
    stored one. *)
Theorem ticket_ids_are_dense w :
  reachable w ->
  (forall id, is_Some (tickets w !! id) <-> 1 <= id <= ticketIdCounter w) /\
  (forall id, 1 <= id <= ticketIdCounter w ->
     1 <= eventId (tickets w !!! id) <= eventIdCounter w /\
     events w !! eventId (tickets w !!! id) = Some (event_of w id)).
Proof.
  intros Hr. pose proof (reachable_inv w Hr) as Hinv.
  pose proof (reachable_ledger_inv w Hr) as Hli. split.
  - intros id. split; [apply (inv_tickets_dom w Hinv) | apply (li_tickets_dom w Hli)].
  - intros id Hid. destruct (li_tickets_dom w Hli id Hid) as [t Ht].
    unfold event_of. rewrite (lookup_total_correct _ _ _ Ht).
    pose proof (li_ticket_event w Hli id t Ht) as He. split; [done|].
    destruct (proj2 (inv_events_dom w Hinv (eventId t)) He) as [ev Hev].
    by rewrite (lookup_total_correct _ _ _ Hev).
Qed.

(** X9.  An asset exists exactly for the tickets that are issued and not
    cancelled: in a reachable world ownerOf finds a holder for an id if and
    only if the id is between 1 and ticketIdCounter and its cancelled flag is
    false; for every other id _ticketOwnerOf answers the zero address. *)
Theorem live_iff_not_cancelled w id :
  reachable w ->
  (is_Some (ownerOf id w) <->
     1 <= id <= ticketIdCounter w /\ isCancelled (tickets w !!! id) = false) /\
  (~ (1 <= id <= ticketIdCounter w /\ isCancelled (tickets w !!! id) = false) ->
     _ticketOwnerOf id w = 0).
Proof.
  intros Hr. pose proof (reachable_inv w Hr) as Hinv.
  pose proof (reachable_ledger_inv w Hr) as Hli.
  assert (is_Some (ownerOf id w) <->
          1 <= id <= ticketIdCounter w /\ isCancelled (tickets w !!! id) = false) as Hiff.
  { unfold ownerOf. split.
    - intros Ho. destruct (inv_owners w Hinv id Ho) as (t & Ht & Hf).
      rewrite (lookup_total_correct _ _ _ Ht). split; [|done].
      apply (inv_tickets_dom w Hinv). eauto.
    - intros [Hid Hf]. destruct (li_tickets_dom w Hli id Hid) as [t Ht].
      rewrite (lookup_total_correct _ _ _ Ht) in Hf.
      by apply (li_live w Hli id t). }
  split; [exact Hiff|].
  intros Hnot. unfold _ticketOwnerOf.
  destruct (ownerOf id w) as [a|] eqn:Ho; [|done].
  exfalso. apply Hnot, Hiff. eauto.
Qed.

(** X6.  The purchaser index is exact: in a reachable world
    getUserTickets(u) holds precisely the ids, between 1 and ticketIdCounter,
    of the tickets whose recorded purchaser is u, each one once; for an
    address that never booked it is empty. *)
Theorem purchaser_index_is_exact w u :
  reachable w ->
  (forall id, id ∈ getUserTickets u w <->
     1 <= id <= ticketIdCounter w /\ ticket_owner (tickets w !!! id) = u) /\
  NoDup (getUserTickets u w) /\
  ((forall id, 1 <= id <= ticketIdCounter w -> ticket_owner (tickets w !!! id) <> u) ->
     getUserTickets u w = []).
Proof.
  intros Hr. pose proof (reachable_inv w Hr) as Hinv.
  pose proof (reachable_ledger_inv w Hr) as Hli.
  assert (forall id, id ∈ getUserTickets u w <->
     1 <= id <= ticketIdCounter w /\ ticket_owner (tickets w !!! id) = u) as Hiff.
  { intros id. unfold getUserTickets. split.
    - intros Hin. destruct (li_index_sound w Hli u id Hin) as (t & Ht & Hu).
      rewrite (lookup_total_correct _ _ _ Ht). split; [|done].
      apply (inv_tickets_dom w Hinv). eauto.
    - intros [Hid Hu]. destruct (li_tickets_dom w Hli id Hid) as [t Ht].
      rewrite (lookup_total_correct _ _ _ Ht) in Hu. subst u.
      by apply (li_index_complete w Hli). }
  split; [exact Hiff|]. split; [apply (li_index_nodup w Hli)|].
  intros Hnone. destruct (getUserTickets u w) as [|id l] eqn:Hl; [done|].
  exfalso. assert (id ∈ id :: l) as Hin by left.
  apply Hiff in Hin as [Hid Hu]. by apply (Hnone id).
Qed.

(** X10.  The sold count is the number of tickets issued: in a reachable
    world soldTickets of every event equals the number of ticket records,
    cancelled ones included, that name the event, and that number never
    exceeds the event's capacity. *)
Theorem sold_count_is_tickets_issued w id :
  reachable w ->
  soldTickets (getEventDetails id w) = N.of_nat (size (tickets_of id w)) /\
  N.of_nat (size (tickets_of id w)) <= totalTickets (getEventDetails id w).
Proof.
  intros Hr. pose proof (li_sold_count w (reachable_ledger_inv w Hr) id) as Hk.
  pose proof (inv_sold_le_total w id (reachable_inv w Hr)) as Hcap.
  unfold getEventDetails in *. rewrite <- Hk. done.
Qed.

End Bookkeeping_facts.

(** ** Prices are uint256 values *)

Section Prices.
Context {T : Type} `{Tok : IERC20 T}.
Implicit Types (w : World (T := T)) (e : Env).


End Prices.

(** ** Payments through the standard token *)








Lemma balance_after_move from to amount (t : Token) al :
  from <> to ->
  balance (mkToken (move from to amount (balances t)) al (on_failure t)) to
    = balance t to + amount /\
  balance (mkToken (move from to amount (balances t)) al (on_failure t)) from
    = balance t from - amount.
Proof.
  intros Hne. unfold balance. cbn. by rewrite move_credit, move_debit.
Qed.



(** X20.  When a cancellation succeeds, over the standard token.  In a
    reachable world cancelBooking succeeds exactly when the caller is the
    current holder of the asset and either custody covers the refund or the
    token answers a refused push with false; the cancelled flag never
    decides, since an asset with a holder belongs to a ticket that is not
    cancelled. *)
Theorem cancelBooking_succeeds_iff e _ticketId (w : World (T := Token)) :
  reachable w ->
  ((exists res w', cancelBooking e _ticketId w = Ok res w') <->
     ownerOf _ticketId w = Some (msg_sender e) /\
     (refundAmount e (event_of w _ticketId) <= balance (tixcoin w) (this w) \/
      on_failure (tixcoin w) = ReturnsFalse)).
Proof.
  intros Hr. pose proof (reachable_inv w Hr) as Hinv. split.
  - intros (res & w' & (Hown & _ & [a Ha] & _ & tok' & _ & Hpush)%cancelBooking_Ok).
    split.
    + unfold _ticketOwnerOf, ownerOf in *. rewrite Ha in Hown. congruence.
    + destruct (0 <? refundAmount e (event_of w _ticketId)) eqn:Hpos.
      * destruct Hpush as [b Hb].
        apply token_transfer_Returned in Hb as [(_ & ? & _) | (_ & _ & ? & _)]; auto.
      * apply N.ltb_ge in Hpos. left. lia.
  - intros [Hown Hpay].
    destruct (inv_owners w Hinv _ticketId) as (t & Ht & Hflag); [unfold ownerOf in Hown; eauto|].
    rewrite cancelBooking_unfold. unfold _ticketOwnerOf. rewrite Hown, N.eqb_refl.
    rewrite (lookup_total_correct _ _ _ Ht), Hflag. cbn zeta.
    unfold ownerOf in Hown. rewrite Hown.
    destruct (0 <? refundAmount e (event_of w _ticketId)) eqn:Hpos; [|eauto].
    cbn [transfer Token_IERC20]. unfold token_transfer, refuse.
    destruct (_ <=? _) eqn:Hle; [eauto|].
    apply N.leb_gt in Hle. destruct Hpay as [? | ->]; [lia | eauto].
Qed.

(** X14.  A sweep blocks refunds.  Over a token that reverts on failure, once
    withdrawFunds has succeeded custody is empty: a second withdrawFunds
    fails with NothingToWithdraw, and every cancellation that owes a refund
    is rejected, the holder keeping an active ticket. *)
Theorem sweep_blocks_refunds e e' _ticketId (w : World (T := Token)) res w1 :
  reachable w ->
  on_failure (tixcoin w) = RevertsOnFailure ->
  withdrawFunds e w = Ok res w1 ->
  ownerOf _ticketId w = Some (msg_sender e') ->
  0 < refundAmount e' (event_of w _ticketId) ->
  balance (tixcoin w1) (this w1) = 0 /\
  withdrawFunds e w1 = Revert NothingToWithdraw w1 /\
  cancelBooking e' _ticketId w1 = Revert (PaymentFailed CallReverted) w1 /\
  ownerOf _ticketId (execute e' (CancelBooking _ticketId) w1) = Some (msg_sender e') /\
  isCancelled (tickets (execute e' (CancelBooking _ticketId) w1) !!! _ticketId) = false.
Proof.
  intros Hr Hmode (Hs & Hpos & _ & b & tok' & Ht & ->)%withdrawFunds_Ok Hown Hrefund.
  pose proof (reachable_inv w Hr) as Hinv.
  assert (_owners w !! _ticketId = Some (msg_sender e')) as Hown' by exact Hown.
  destruct (inv_owners w Hinv _ticketId) as (t & Htk & Hflag); [eauto|].
  cbn [balanceOf transfer Token_IERC20] in Ht, Hpos.
  assert (balance tok' (this w) = 0 /\ on_failure tok' = RevertsOnFailure) as [Hzero Hmode'].
  { apply token_transfer_Returned in Ht as [(_ & _ & ->) | (_ & Hlt & _)]; [|lia].
    split; [|done].
    destruct (balance_after_move (this w) (owner w) (balance (tixcoin w) (this w))
                (tixcoin w) (allowances (tixcoin w))) as [_ Hfrom].
    - intros Heq. by apply (inv_owner w Hinv).
    - rewrite Hfrom. lia. }
  assert (cancelBooking e' _ticketId (set_tixcoin tok' w)
          = Revert (PaymentFailed CallReverted) (set_tixcoin tok' w)) as Hcancel.
  { apply cancelBooking_refund_reverted; cbn; try done.
    - unfold _ticketOwnerOf, ownerOf. cbn. by rewrite Hown'.
    - by rewrite (lookup_total_correct _ _ _ Htk).
    - cbn [transfer Token_IERC20]. unfold token_transfer, refuse.
      replace (_ <=? _) with false; [by rewrite Hmode'|].
      symmetry. apply N.leb_gt. unfold event_of in *. cbn. lia. }
  split; [exact Hzero|]. split.
  - rewrite withdrawFunds_unfold. cbn [owner this tixcoin set_tixcoin balanceOf Token_IERC20].
    apply N.eqb_eq in Hs. by rewrite Hs, Hzero.
  - split; [exact Hcancel|].
    rewrite (execute_revert e' (CancelBooking _ticketId) _ _ _ Hcancel). cbn.
    split; [exact Hown|]. by rewrite (lookup_total_correct _ _ _ Htk).
Qed.

(** ** The front end *)

Lemma elem_of_ids_upto i n : i ∈ ids_upto n <-> 1 <= i <= n.
Proof.
  unfold ids_upto. rewrite list_elem_of_fmap. split.
  - intros (k & -> & Hk%elem_of_seq). lia.
  - intros Hi. exists (N.to_nat i). split; [lia|]. apply elem_of_seq. lia.
Qed.

Section Front_end.
Context {T : Type} `{Tok : IERC20 T}.
Implicit Types (w : World (T := T)) (e : Env).

Lemma elem_of_loadedEvents w le :
  le ∈ loadedEvents w <->
  1 <= loaded_id le <= eventIdCounter w /\ loaded le = getEventDetails (loaded_id le) w.
Proof.
  unfold loadedEvents. rewrite list_elem_of_fmap. split.
  - intros (i & -> & Hi%elem_of_ids_upto). done.
  - intros [Hi Hl]. exists (loaded_id le). split; [|by apply elem_of_ids_upto].
    destruct le as [i ev]. cbn in *. by rewrite Hl.
Qed.

Lemma elem_of_availableEvents w le :
  le ∈ availableEvents w <->
  le ∈ loadedEvents w /\ soldTickets (loaded le) < totalTickets (loaded le).
Proof.
  unfold availableEvents. rewrite !list_elem_of_In, filter_In, N.ltb_lt. done.
Qed.

(** X16.  The event list of the front end is the ledger's: in a reachable
    world whose event counter is within the range a JavaScript number counts
    exactly, loadedEvents has one entry per created event, in id order, each
    carrying the stored record; nothing is listed that was not created.  The
    events offered for booking are those with a seat left, which are exactly
    the ids bookTicket rejects neither with NotFound nor with SoldOut. *)
Theorem loadedEvents_lists_every_event w :
  reachable w -> eventIdCounter w <= js_max_safe ->
  loaded_id <$> loadedEvents w = ids_upto (eventIdCounter w) /\
  (forall le, le ∈ loadedEvents w <-> events w !! loaded_id le = Some (loaded le)) /\
  (forall le, le ∈ loadedEvents w ->
     (le ∈ availableEvents w <->
      forall e, bookTicket e (loaded_id le) w <> Revert NotFound w /\
                bookTicket e (loaded_id le) w <> Revert SoldOut w)).
Proof.
  intros Hr _. pose proof (reachable_inv w Hr) as Hinv. split; [|split].
  - unfold loadedEvents. rewrite <- list_fmap_compose. cbn. apply list_fmap_id.
  - intros le. rewrite elem_of_loadedEvents. unfold getEventDetails. split.
    + intros [Hi ->]. destruct (proj2 (inv_events_dom w Hinv _) Hi) as [ev Hev].
      by rewrite (lookup_total_correct _ _ _ Hev).
    + intros Hev. split; [apply (inv_events_dom w Hinv); eauto|].
      by rewrite (lookup_total_correct _ _ _ Hev).
  - intros le Hle. rewrite elem_of_availableEvents.
    apply elem_of_loadedEvents in Hle as Hle'. destruct Hle' as [Hi Hl].
    unfold getEventDetails in Hl. split.
    + intros [_ Hseat] e. rewrite Hl in Hseat. apply N.ltb_lt in Hseat.
      rewrite bookTicket_unfold. in_range Hi. rewrite Hseat.
      destruct (transferFrom _ _ _ _ _) as [[] ?|]; [|done..].
      destruct (_ <? uint256_max); [|done].
      destruct (_ <? uint256_max); [|done].
      destruct (msg_sender e =? 0); [done|].
      destruct (_owners w !! _); [done|].
      by destruct (receivers w !! _) as [[]|].
    + intros Hnot. split; [done|]. rewrite Hl.
      destruct (N.lt_ge_cases (soldTickets (events w !!! loaded_id le))
                              (totalTickets (events w !!! loaded_id le))) as [?|Hfull];
        [done|].
      exfalso. destruct (Hnot (mkEnv 0 0)) as [_ Hso]. apply Hso.
      rewrite bookTicket_unfold. in_range Hi.
      apply N.ltb_ge in Hfull. by rewrite Hfull.
Qed.

Variable strict_equal : N -> N -> bool.

Lemma loadUserTicket_shown w id :
  loadUserTicket strict_equal w id
  = if decide (is_Some (ownerOf id w))
    then Some (mkUserTicket (pretty id)
                 (eventName_of strict_equal (tickets w !!! id) w) false)
    else None.
Proof.
  unfold loadUserTicket. destruct (ownerOf id w) eqn:Ho.
  - by rewrite decide_True by eauto.
  - by rewrite decide_False by (by intros [? ?]).
Qed.

Lemma shown_ids w (l : list N) :
  (forall id, id ∈ l ->
     (is_Some (ownerOf id w) <-> isCancelled (tickets w !!! id) = false)) ->
  shown_id <$> omap (loadUserTicket strict_equal w) l
  = pretty <$> List.filter (fun id => negb (isCancelled (tickets w !!! id))) l.
Proof.
  induction l as [|id l IH]; intros Hl; [done|]. cbn.
  rewrite loadUserTicket_shown.
  assert (forall id', id' ∈ l ->
     (is_Some (ownerOf id' w) <-> isCancelled (tickets w !!! id') = false)) as Hl'
    by (intros id' Hin; apply Hl; by right).
  specialize (IH Hl').
  destruct (Hl id) as [H1 H2]; [by left|].
  case_decide as Ho.
  - rewrite (H1 Ho). cbn. by rewrite IH.
  - destruct (isCancelled (tickets w !!! id)) eqn:Hc; cbn; [done|].
    exfalso. by apply Ho, H2.
Qed.

(** X17.  "My Tickets" shows the tickets bought and not cancelled.  With
    the isAdmin flag set, fetchData builds no list.  With the flag not set,
    in a reachable world, the ids of the list it builds are, in purchase
    order, the ids of the account's purchaser index whose cancelled flag is
    false, whether or not the account still holds the asset; the flag the
    front end writes into each entry, false, is the one the ledger stores. *)
Theorem loadedUserTickets_shows_active account w :
  reachable w ->
  loadedUserTickets strict_equal true account w = None /\
  exists shown,
    loadedUserTickets strict_equal false account w = Some shown /\
    shown_id <$> shown
    = pretty <$> List.filter (fun id => negb (isCancelled (tickets w !!! id)))
                             (getUserTickets account w) /\
    (forall t, t ∈ shown ->
       exists id, id ∈ getUserTickets account w /\ shown_id t = pretty id /\
                  shown_isCancelled t = isCancelled (tickets w !!! id)).
Proof.
  intros Hr. pose proof (reachable_inv w Hr) as Hinv.
  pose proof (reachable_ledger_inv w Hr) as Hli.
  assert (forall id, id ∈ getUserTickets account w ->
     (is_Some (ownerOf id w) <-> isCancelled (tickets w !!! id) = false)) as Hlive.
  { intros id Hin. destruct (li_index_sound w Hli account id Hin) as (t & Ht & _).
    rewrite (lookup_total_correct _ _ _ Ht). unfold ownerOf. split.
    - intros Ho. destruct (inv_owners w Hinv id Ho) as (t' & Ht' & Hf). congruence.
    - by apply (li_live w Hli). }
  split; [reflexivity|].
  exists (omap (loadUserTicket strict_equal w) (getUserTickets account w)).
  split; [reflexivity|]. split; [by apply shown_ids|].
  intros t. rewrite list_elem_of_omap.
  intros (id & Hin & Hload). exists id. split; [done|].
  rewrite loadUserTicket_shown in Hload. case_decide as Ho; [|discriminate].
  injection Hload as <-. cbn. split; [done|].
  symmetry. by apply Hlive.
Qed.

End Front_end.


(** ** The properties above on the small deployment *)

Lemma flows_reachable_handed_over s : reachable (Flows.handed_over s).
Proof.
  apply (reachable_handover (Scenario.booked s) 1 Flows.friend).
  - apply scenario_reachable_booked.
  - destruct s; vm_compute; eauto.
Defined.

Lemma flows_call_with_free_event s :
  call (Scenario.as_admin 11) (CreateEvent "open day" 60 0 5 50) (Scenario.booked s)
  = Ok [] (Flows.with_free_event s).
Proof. destruct s; vm_compute; reflexivity. Defined.

Lemma flows_call_free_booked s :
  call (Scenario.as_buyer 22) (BookTicket 2) (Flows.with_free_event s)
  = Ok [] (Flows.free_booked s).
Proof. destruct s; vm_compute; reflexivity. Defined.

Lemma flows_reachable_with_free_event s : reachable (Flows.with_free_event s).
Proof.
  eapply reachable_call;
    [apply scenario_reachable_booked| |apply flows_call_with_free_event].
  cbn. repeat split; apply uint256_small; reflexivity.
Defined.

Lemma flows_reachable_free_booked s : reachable (Flows.free_booked s).
Proof.
  eapply reachable_call;
    [apply flows_reachable_with_free_event| |apply flows_call_free_booked].
  apply uint256_small. reflexivity.
Defined.

Lemma flows_args_book_book_cancel :
  Forall (fun c : Env * Op => uint256_args (snd c))
         [ (Scenario.as_buyer 20, BookTicket 1);
           (Scenario.as_buyer 21, BookTicket 1);
           (Scenario.as_buyer 30, CancelBooking 1) ].
Proof. repeat constructor; apply uint256_small; reflexivity. Defined.

Lemma flows_reachable_round_trip s : reachable (Scenario.round_trip s).
Proof.
  unfold Scenario.round_trip.
  apply reachable_run; [apply reachable_deploy; discriminate|].
  do 6 (constructor; [cbn; repeat split; apply uint256_small; reflexivity|]).
  constructor.
Defined.

Lemma flows_args_cancel :
  Forall (fun c : Env * Op => uint256_args (snd c))
         [ (Scenario.as_buyer 30, CancelBooking 1) ].
Proof. repeat constructor; apply uint256_small; reflexivity. Defined.

Lemma createEvent_access_witness :
  createEvent (Scenario.as_buyer 10) "gala" 60 101 2 50 (Scenario.deployed RevertsOnFailure)
    = Revert Unauthorized (Scenario.deployed RevertsOnFailure) /\
  (exists res w',
     createEvent (Scenario.as_admin 10) "nothing for sale" 0 0 0 0
                 (Scenario.deployed RevertsOnFailure) = Ok res w').
Proof.
  split.
  - apply (createEvent_access (Scenario.as_buyer 10) "gala" 60 101 2 50
             (Scenario.deployed RevertsOnFailure)).
    vm_compute. discriminate.
  - apply (createEvent_access (Scenario.as_admin 10) "nothing for sale" 0 0 0 0
             (Scenario.deployed RevertsOnFailure)).
    split; [reflexivity | vm_compute; reflexivity].
Defined.

Lemma event_terms_are_fixed_witness :
  exists ev',
    events (run [ (Scenario.as_buyer 20, BookTicket 1);
                  (Scenario.as_buyer 21, BookTicket 1);
                  (Scenario.as_buyer 30, CancelBooking 1) ]
                (Scenario.with_event RevertsOnFailure)) !! 1 = Some ev' /\
    price ev' = 101 /\ totalTickets ev' = 2.
Proof.
  destruct (event_terms_are_fixed _ (Scenario.with_event RevertsOnFailure) 1
              (mkEvent "gala" 60 101 2 0 50)
              (scenario_reachable_with_event RevertsOnFailure)
              flows_args_book_book_cancel)
    as (ev' & Hev' & _ & _ & Hp & Ht & _).
  - vm_compute. reflexivity.
  - exists ev'. split; [exact Hev'|]. split; [exact Hp | exact Ht].
Defined.

Lemma sold_out_is_permanent_witness :
  bookTicket (Scenario.as_buyer 40) 1
    (run [ (Scenario.as_buyer 30, CancelBooking 1) ] (Scenario.sold_out RevertsOnFailure))
  = Revert SoldOut
      (run [ (Scenario.as_buyer 30, CancelBooking 1) ] (Scenario.sold_out RevertsOnFailure)).
Proof.
  apply (sold_out_is_permanent _ (Scenario.as_buyer 40)
           (Scenario.sold_out RevertsOnFailure) 1
           (scenario_reachable_sold_out RevertsOnFailure) flows_args_cancel).
  - vm_compute. split; discriminate.
  - vm_compute. discriminate.
Defined.


Lemma purchaser_index_is_exact_witness :
  (1 ∈ getUserTickets Scenario.buyer (Scenario.cancelled RevertsOnFailure)) /\
  getUserTickets Scenario.stranger (Scenario.cancelled RevertsOnFailure) = [].
Proof.
  split.
  - apply (purchaser_index_is_exact (Scenario.cancelled RevertsOnFailure) Scenario.buyer
             (scenario_reachable_cancelled RevertsOnFailure)).
    split; [vm_compute; split; discriminate | vm_compute; reflexivity].
  - apply (purchaser_index_is_exact (Scenario.cancelled RevertsOnFailure) Scenario.stranger
             (scenario_reachable_cancelled RevertsOnFailure)).
    intros id Hid.
    assert (ticketIdCounter (Scenario.cancelled RevertsOnFailure) = 1) as Hctr
      by (vm_compute; reflexivity).
    rewrite Hctr in Hid. assert (id = 1) as -> by lia.
    vm_compute. discriminate.
Defined.

Lemma ticket_record_is_permanent_witness :
  exists t',
    tickets (run [ (Scenario.as_buyer 30, CancelBooking 1) ]
                 (Scenario.booked RevertsOnFailure)) !! 1 = Some t' /\
    eventId t' = 1 /\ ticket_owner t' = Scenario.buyer.
Proof.
  destruct (ticket_record_is_permanent _ (Scenario.booked RevertsOnFailure) 1
              (mkTicket 1 Scenario.buyer false)
              (scenario_reachable_booked RevertsOnFailure) flows_args_cancel)
    as (t' & Ht' & He & Ho & _).
  - vm_compute. reflexivity.
  - exists t'. split; [exact Ht'|]. split; [exact He | exact Ho].
Defined.

Lemma ticket_ids_are_dense_witness :
  is_Some (tickets (Scenario.sold_out RevertsOnFailure) !! 2) /\
  events (Scenario.sold_out RevertsOnFailure)
    !! eventId (tickets (Scenario.sold_out RevertsOnFailure) !!! 2)
  = Some (event_of (Scenario.sold_out RevertsOnFailure) 2).
Proof.
  destruct (ticket_ids_are_dense (Scenario.sold_out RevertsOnFailure)
              (scenario_reachable_sold_out RevertsOnFailure)) as [Hdom Hev].
  split.
  - apply Hdom. vm_compute. split; discriminate.
  - apply Hev. vm_compute. split; discriminate.
Defined.

Lemma live_iff_not_cancelled_witness :
  _ticketOwnerOf 1 (Scenario.cancelled RevertsOnFailure) = 0 /\
  is_Some (ownerOf 1 (Scenario.booked RevertsOnFailure)).
Proof.
  split.
  - apply (live_iff_not_cancelled (Scenario.cancelled RevertsOnFailure) 1
             (scenario_reachable_cancelled RevertsOnFailure)).
    vm_compute. intros [_ H]. discriminate.
  - apply (live_iff_not_cancelled (Scenario.booked RevertsOnFailure) 1
             (scenario_reachable_booked RevertsOnFailure)).
    vm_compute. split; [split; discriminate | reflexivity].
Defined.

Lemma sold_count_is_tickets_issued_witness :
  soldTickets (getEventDetails 1 (Scenario.round_trip RevertsOnFailure))
  = N.of_nat (size (tickets_of 1 (Scenario.round_trip RevertsOnFailure))).
Proof.
  apply (sold_count_is_tickets_issued (Scenario.round_trip RevertsOnFailure) 1).
  apply flows_reachable_round_trip.
Defined.

Lemma cancel_is_for_the_holder_witness :
  ticket_owner (tickets (Flows.handed_over RevertsOnFailure) !!! 1) = Scenario.buyer /\
  cancelBooking (Scenario.as_buyer 30) 1 (Flows.handed_over RevertsOnFailure)
    = Revert NotOwner (Flows.handed_over RevertsOnFailure) /\
  (exists res w', cancelBooking (mkEnv Flows.friend 30) 1 (Flows.handed_over RevertsOnFailure)
                  = Ok res w').
Proof.
  split; [vm_compute; reflexivity|]. split.
  - apply (cancel_is_for_the_holder (Scenario.as_buyer 30) 1
             (Flows.handed_over RevertsOnFailure)) with (holder := Flows.friend).
    + vm_compute. reflexivity.
    + vm_compute. discriminate.
  - eexists _, _. vm_compute. reflexivity.
Defined.

Lemma zero_refund_needs_no_token_witness :
  cancelBooking (Scenario.as_buyer 30) 2 (Flows.free_booked RevertsOnFailure)
  = Ok [] (cancelled_world (Flows.free_booked RevertsOnFailure) 2
             (tixcoin (Flows.free_booked RevertsOnFailure))).
Proof.
  apply (zero_refund_needs_no_token (Scenario.as_buyer 30) 2
           (Flows.free_booked RevertsOnFailure)).
  - vm_compute. reflexivity.
  - vm_compute. reflexivity.
  - vm_compute. reflexivity.
Defined.



Lemma cancelBooking_succeeds_iff_witness :
  exists res w',
    cancelBooking (Scenario.as_buyer 30) 1 (Scenario.booked RevertsOnFailure) = Ok res w'.
Proof.
  apply (cancelBooking_succeeds_iff (Scenario.as_buyer 30) 1
           (Scenario.booked RevertsOnFailure)
           (scenario_reachable_booked RevertsOnFailure)).
  split; [vm_compute; reflexivity|]. left. vm_compute. discriminate.
Defined.

Lemma sweep_blocks_refunds_witness :
  cancelBooking (Scenario.as_buyer 30) 1 (Scenario.swept RevertsOnFailure)
    = Revert (PaymentFailed CallReverted) (Scenario.swept RevertsOnFailure) /\
  withdrawFunds (Scenario.as_admin 25) (Scenario.swept RevertsOnFailure)
    = Revert NothingToWithdraw (Scenario.swept RevertsOnFailure).
Proof.
  destruct (sweep_blocks_refunds (Scenario.as_admin 25) (Scenario.as_buyer 30) 1
              (Scenario.booked RevertsOnFailure) [] (Scenario.swept RevertsOnFailure)
              (scenario_reachable_booked RevertsOnFailure))
    as (_ & Hw & Hc & _).
  - vm_compute. reflexivity.
  - vm_compute. reflexivity.
  - vm_compute. reflexivity.
  - vm_compute. reflexivity.
  - split; [exact Hc | exact Hw].
Defined.

Lemma js_small n : n < 1000 -> n <= js_max_safe.
Proof. unfold js_max_safe. lia. Defined.

Lemma loadedEvents_lists_every_event_witness :
  loaded_id <$> loadedEvents (Scenario.booked RevertsOnFailure) = [1] /\
  mkLoadedEvent 1 (mkEvent "gala" 60 101 2 1 50)
    ∈ loadedEvents (Scenario.booked RevertsOnFailure).
Proof.
  destruct (loadedEvents_lists_every_event (Scenario.booked RevertsOnFailure)
              (scenario_reachable_booked RevertsOnFailure)) as (Hids & Hall & _).
  - apply js_small. vm_compute. reflexivity.
  - split; [exact Hids|]. apply Hall. vm_compute. reflexivity.
Defined.

Lemma loadedUserTickets_shows_active_witness :
  loadedUserTickets (fun _ _ => false) true Scenario.buyer
                    (Scenario.sold_out RevertsOnFailure) = None /\
  (exists shown,
     loadedUserTickets (fun _ _ => false) false Scenario.buyer
                       (Scenario.sold_out RevertsOnFailure) = Some shown /\
     shown_id <$> shown = ["1"; "2"]) /\
  (exists shown,
     loadedUserTickets (fun _ _ => false) false Scenario.buyer
                       (Scenario.round_trip RevertsOnFailure) = Some shown /\
     shown_id <$> shown = []).
Proof.
  destruct (loadedUserTickets_shows_active (fun _ _ => false) Scenario.buyer
              (Scenario.sold_out RevertsOnFailure)
              (scenario_reachable_sold_out RevertsOnFailure))
    as [Hnone (shown & Hsome & Hids & _)].
  destruct (loadedUserTickets_shows_active (fun _ _ => false) Scenario.buyer
              (Scenario.round_trip RevertsOnFailure)
              (flows_reachable_round_trip RevertsOnFailure))
    as [_ (shown' & Hsome' & Hids' & _)].
  split; [exact Hnone|]. split.
  - exists shown. split; [exact Hsome|]. rewrite Hids. vm_compute. reflexivity.
  - exists shown'. split; [exact Hsome'|]. rewrite Hids'. vm_compute. reflexivity.
Defined.


(** ** Withdrawing, whatever the token answers *)

Section Withdrawing.
Context {T : Type} `{Tok : IERC20 T}.
Implicit Types (w : World (T := T)) (e : Env).

(** X21.  withdrawFunds touches nothing but the token and does not look at
    the token's answer: a successful call leaves events, tickets, purchaser
    index, holders and counters as they were; once the caller is the owner
    and custody is positive, the call succeeds with whatever state the token
    returns, whether the returned flag is true or false, and fails only if
    the token itself reverts. *)
Theorem withdrawFunds_ignores_flag e w :
  (forall res w', withdrawFunds e w = Ok res w' ->
     res = [] /\ events w' = events w /\ tickets w' = tickets w /\
     ownerBookings w' = ownerBookings w /\ _owners w' = _owners w /\
     eventIdCounter w' = eventIdCounter w /\ ticketIdCounter w' = ticketIdCounter w) /\
  (msg_sender e = owner w -> 0 < balanceOf (tixcoin w) (this w) ->
     (forall flag tok',
        transfer (this w) (owner w) (balanceOf (tixcoin w) (this w)) (tixcoin w)
          = Returned flag tok' ->
        withdrawFunds e w = Ok [] (set_tixcoin tok' w)) /\
     (transfer (this w) (owner w) (balanceOf (tixcoin w) (this w)) (tixcoin w)
        = Reverted ->
      withdrawFunds e w = Revert (PaymentFailed CallReverted) w)).
Proof.
  split.
  - intros res w' (_ & _ & -> & b & tok' & _ & ->)%withdrawFunds_Ok. done.
  - intros Hs%N.eqb_eq Hpos%N.ltb_lt. split.
    + intros flag tok' Ht. by rewrite withdrawFunds_unfold, Hs, Hpos, Ht.
    + intros Ht. by rewrite withdrawFunds_unfold, Hs, Hpos, Ht.
Qed.

End Withdrawing.

(** The administrator's sweep against the suspended token: the call
    succeeds and custody is where it was. *)
Lemma withdrawFunds_ignores_flag_witness :
  withdrawFunds (Scenario.as_admin 5) Flows.suspended = Ok [] Flows.suspended /\
  balanceOf (tixcoin Flows.suspended) Scenario.ledger = 300.
Proof.
  split; [|vm_compute; reflexivity].
  destruct (withdrawFunds_ignores_flag (Scenario.as_admin 5) Flows.suspended)
    as [_ Hflag].
  destruct Hflag as [Hany _].
  - vm_compute. reflexivity.
  - vm_compute. reflexivity.
  - apply (Hany false (tixcoin Flows.suspended)). vm_compute. reflexivity.
Defined.
